(** * De Bruijn graph assembler: a shallow embedding of [debruijn/debruijn.py]

    The Python program cuts reads into k-mers, counts them, builds a
    weighted directed graph (a networkx [DiGraph]) and simplifies it.
    The functions of [debruijn.py] are embedded below under their own
    names.  The pieces of the Python runtime and of the libraries they
    call (slices, [dict], [statistics], [random.randint], numpy's
    [argmax], networkx) are modelled in the modules [Py], [Stats] and
    [Nx].

    Conventions.
    - A Python exception is a value [Err e] of the type [result]; the
      program has no [try], so an exception always reaches the caller.
    - A [str] is a [string]; one [ascii] is one character.
    - A [dict] is an association list in insertion order (Python keeps
      it, and [build_graph] iterates over it).
    - A Python number is its exact value, a rational [Q]: an [int] is
      a whole value, a finite [float] is the value of the double.
      [statistics] computes with exact fractions and rounds once, at
      the end; the rounding to the nearest double is [Stats.to_float].
    - The graph object is mutated in place and returned by the same
      functions; in the embedding a function returns the new graph.
      When a call raises, the embedding gives the exception: the graph
      that the call leaves behind may already have lost nodes. *)

From Stdlib Require Import List String Ascii Bool Arith ZArith QArith Lia Permutation.
From Stdlib Require Import Qpower Qround Qabs Lqa.
Import ListNotations.

Local Open Scope string_scope.
Local Open Scope nat_scope.
Local Open Scope list_scope.

(** ** The Python runtime *)

Module Py.

(** The exceptions that the embedded code can raise. *)
Inductive exn : Type :=
| IndexError
| TypeError
| ValueError
| ZeroDivisionError
| RuntimeError
| RecursionError
| StatisticsError
| OverflowError
| NodeNotFound
| NetworkXError
| NetworkXPointlessConcept.

Inductive result (A : Type) : Type :=
| Ok (a : A)
| Err (e : exn).
Arguments Ok {A} a.
Arguments Err {A} e.

Definition bind {A B : Type} (m : result A) (k : A -> result B) : result B :=
  match m with
  | Ok a => k a
  | Err e => Err e
  end.

Definition is_ok {A : Type} (m : result A) : bool :=
  match m with Ok _ => true | Err _ => false end.

(** [mapM f l]: run [f] on every element, left to right, stopping at
    the first exception. *)
Fixpoint mapM {A B : Type} (f : A -> result B) (l : list A) : result (list B) :=
  match l with
  | [] => Ok []
  | a :: l' =>
      bind (f a) (fun b => bind (mapM f l') (fun bs => Ok (b :: bs)))
  end.

(** Index normalisation of a slice bound on a sequence of length [n]:
    a negative bound counts from the end, and every bound is clamped
    to [0, n]. *)
Definition clamp (n : nat) (i : Z) : nat :=
  if (i <? 0)%Z then Z.to_nat (i + Z.of_nat n) else Nat.min (Z.to_nat i) n.

Definition slice_bounds (n : nat) (lo hi : option Z) : nat * nat :=
  (match lo with Some i => clamp n i | None => 0 end,
   match hi with Some i => clamp n i | None => n end).

(** [l[lo:hi]] *)
Definition list_slice {A : Type} (l : list A) (lo hi : option Z) : list A :=
  let '(a, b) := slice_bounds (List.length l) lo hi in
  firstn (b - a) (skipn a l).

(** [s[lo:hi]] on a string. *)
Definition str_slice (s : string) (lo hi : option Z) : string :=
  string_of_list_ascii (list_slice (list_ascii_of_string s) lo hi).

(** A value passed where Python expects an index: the program passes
    integers and, in one place, a graph object. *)
Inductive index_arg (G : Type) : Type :=
| IntArg (i : Z)
| ObjArg (g : G).
Arguments IntArg {G} i.
Arguments ObjArg {G} g.

(** [l.pop(i)]: the list without its [i]-th element.  A negative [i]
    counts from the end; an index out of range raises [IndexError],
    an argument that is not an integer raises [TypeError]. *)
Fixpoint remove_nth {A : Type} (i : nat) (l : list A) : list A :=
  match l, i with
  | [], _ => []
  | _ :: l', O => l'
  | a :: l', S i' => a :: remove_nth i' l'
  end.

Definition list_pop {A G : Type} (l : list A) (i : index_arg G) : result (list A) :=
  match i with
  | ObjArg _ => Err TypeError
  | IntArg z =>
      let z' := if (z <? 0)%Z then (z + Z.of_nat (List.length l))%Z else z in
      if ((z' <? 0)%Z || (Z.of_nat (List.length l) <=? z')%Z)%bool
      then Err IndexError
      else Ok (remove_nth (Z.to_nat z') l)
  end.

(** [str.isspace] on one character (code points below 256). *)
Definition is_space (c : ascii) : bool :=
  let n := nat_of_ascii c in
  ((9 <=? n) && (n <=? 13)) || ((28 <=? n) && (n <=? 32))
  || (n =? 133) || (n =? 160).

Fixpoint lstrip (l : list ascii) : list ascii :=
  match l with
  | c :: l' => if is_space c then lstrip l' else l
  | [] => []
  end.

(** [s.strip()] *)
Definition strip (s : string) : string :=
  string_of_list_ascii (rev (lstrip (rev (lstrip (list_ascii_of_string s))))).

(** A [dict] from strings to integers, in insertion order. *)
Definition dict : Type := list (string * Z).

Fixpoint dict_get (d : dict) (k : string) : option Z :=
  match d with
  | [] => None
  | (k', v) :: d' => if String.eqb k' k then Some v else dict_get d' k
  end.

(** [d[k] = v]: the value of an existing key is replaced where it is,
    a new key goes to the end. *)
Fixpoint dict_set (d : dict) (k : string) (v : Z) : dict :=
  match d with
  | [] => [(k, v)]
  | (k', v') :: d' =>
      if String.eqb k' k then (k', v) :: d' else (k', v') :: dict_set d' k v
  end.

Definition dict_keys (d : dict) : list string := map fst d.

End Py.

Import Py.

Notation "x <- m ;; k" := (Py.bind m (fun x => k))
  (at level 61, m at next level, right associativity).

(** ** K-mer counting *)

(** [read_fastq]: the file is the list of its lines.  One record is four
    lines, the second is the read; a record cut short makes [next(f)]
    raise [StopIteration] inside the generator, which Python turns into
    a [RuntimeError]. *)
Fixpoint read_fastq (fastq_file : list string) : result (list string) :=
  match fastq_file with
  | [] => Ok []
  | _ :: sequence :: _ :: _ :: rest =>
      seqs <- read_fastq rest ;;
      Ok (strip sequence :: seqs)
  | _ => Err RuntimeError
  end.

(** [cut_kmer]: the substrings that the generator yields, in order.
    [len(read) % kmer_size] raises [ZeroDivisionError] for a size 0. *)
Definition cut_kmer (read : string) (kmer_size : nat) : result (list string) :=
  match kmer_size with
  | O => Err ZeroDivisionError
  | S _ =>
      let k_over := kmer_size + String.length read mod kmer_size in
      Ok (map (fun i => str_slice read (Some (Z.of_nat i))
                                       (Some (Z.of_nat (i + kmer_size))))
              (seq 0 (k_over + 1)))
  end.

(** The body of the inner loop of [build_kmer_dict]. *)
Definition count_kmer (kmer_dict : dict) (kmer : string) : dict :=
  match dict_get kmer_dict kmer with
  | Some n => dict_set kmer_dict kmer (n + 1)%Z
  | None => dict_set kmer_dict kmer 1%Z
  end.

(** The outer loop of [build_kmer_dict] over the reads.  The program
    counts a read as soon as the generator yields it; reading the file
    first gives the same result when the file is complete or the size
    is at least one (the cutter then never raises), which is where the
    statements below are made. *)
Fixpoint count_reads (kmer_dict : dict) (reads : list string) (kmer_size : nat)
  : result dict :=
  match reads with
  | [] => Ok kmer_dict
  | seq :: reads' =>
      kmers <- cut_kmer seq kmer_size ;;
      count_reads (fold_left count_kmer kmers kmer_dict) reads' kmer_size
  end.

Definition build_kmer_dict (fastq_file : list string) (kmer_size : nat)
  : result dict :=
  reads <- read_fastq fastq_file ;;
  count_reads [] reads kmer_size.

(** ** The graph library

    A model of the part of networkx that the program uses.  A [DiGraph]
    keeps its nodes and, for every node, its successors and predecessors
    in dictionaries, hence in insertion order; one list of nodes and one
    list of weighted edges, both in insertion order, give the same
    iteration orders. *)

Module Nx.

Definition edge : Type := string * string * Z.

Definition src (e : edge) : string := fst (fst e).
Definition dst (e : edge) : string := snd (fst e).
Definition weight (e : edge) : Z := snd e.

Record DiGraph : Type := mkDiGraph {
  nodes : list string;
  edges : list edge
}.

Definition empty : DiGraph := mkDiGraph [] [].

Definition mem (n : string) (l : list string) : bool :=
  existsb (String.eqb n) l.

Definition has_node (g : DiGraph) (n : string) : bool := mem n (nodes g).

Definition add_node (g : DiGraph) (n : string) : DiGraph :=
  if has_node g n then g else mkDiGraph (nodes g ++ [n]) (edges g).

(** The edge [u -> v] gets the weight [w]: an edge that exists keeps
    its place and takes the new weight. *)
Fixpoint set_edge (es : list edge) (u v : string) (w : Z) : list edge :=
  match es with
  | [] => [(u, v, w)]
  | e :: es' =>
      if String.eqb (src e) u && String.eqb (dst e) v
      then (u, v, w) :: es'
      else e :: set_edge es' u v w
  end.

(** [G.add_edge(u, v, weight=w)] *)
Definition add_edge (g : DiGraph) (u v : string) (w : Z) : DiGraph :=
  let g' := add_node (add_node g u) v in
  mkDiGraph (nodes g') (set_edge (edges g') u v w).

(** Removing a node removes the edges at it; a node that is not in
    the graph is skipped. *)
Definition remove_node (g : DiGraph) (n : string) : DiGraph :=
  if has_node g n then
    mkDiGraph
      (filter (fun m => negb (String.eqb m n)) (nodes g))
      (filter (fun e => negb (String.eqb (src e) n) && negb (String.eqb (dst e) n))
              (edges g))
  else g.

(** [G.remove_nodes_from(ns)] *)
Definition remove_nodes_from (g : DiGraph) (ns : list string) : DiGraph :=
  fold_left remove_node ns g.

(** [G.successors(n)] and [G.predecessors(n)], for a node of [G]. *)
Definition successors (g : DiGraph) (n : string) : list string :=
  map dst (filter (fun e => String.eqb (src e) n) (edges g)).

Definition predecessors (g : DiGraph) (n : string) : list string :=
  map src (filter (fun e => String.eqb (dst e) n) (edges g)).

(** [G.subgraph(ns)]: the nodes of [ns] that are in [G] and the edges
    of [G] between them. *)
Definition subgraph (g : DiGraph) (ns : list string) : DiGraph :=
  mkDiGraph
    (filter (fun n => mem n ns) (nodes g))
    (filter (fun e => mem (src e) ns && mem (dst e) ns) (edges g)).

(** The depth-first enumeration of [all_simple_paths] for one target:
    [visited] is the path so far, [current] its last node.  A child
    that is the target is yielded and not entered. *)
Fixpoint simple_paths_from (fuel : nat) (g : DiGraph) (target : string)
    (visited : list string) (current : string) : list (list string) :=
  match fuel with
  | O => []
  | S fuel' =>
      flat_map
        (fun child =>
           if mem child visited then []
           else if String.eqb child target then [visited ++ [child]]
           else simple_paths_from fuel' g target (visited ++ [child]) child)
        (successors g current)
  end.

(** [all_simple_paths(G, source, target)], as the list of the paths
    that the generator yields.  The cutoff is [len(G) - 1].  Both
    nodes are taken in [G], as they are at every call of the program. *)
Definition all_simple_paths (g : DiGraph) (source target : string)
  : result (list (list string)) :=
  if negb (has_node g source) then Err NodeNotFound
  else if negb (has_node g target) then Err NodeNotFound
  else if String.eqb source target then Ok []
  else Ok (simple_paths_from (List.length (nodes g) - 1) g target [source] source).

(** [is_directed_acyclic_graph]: peel off the nodes without
    predecessor until none is left. *)
Fixpoint peel (fuel : nat) (ns : list string) (es : list edge) : bool :=
  match ns with
  | [] => true
  | _ :: _ =>
      match fuel with
      | O => false
      | S fuel' =>
          let free := filter (fun n => negb (mem n (map dst es))) ns in
          match free with
          | [] => false
          | _ :: _ =>
              peel fuel'
                   (filter (fun n => negb (mem n free)) ns)
                   (filter (fun e => negb (mem (src e) free)) es)
          end
      end
  end.

Definition is_directed_acyclic_graph (g : DiGraph) : bool :=
  peel (List.length (nodes g)) (nodes g) (edges g).

(** The nodes from which one of [seen] is reached, [seen] included. *)
Fixpoint backward (fuel : nat) (g : DiGraph) (seen : list string) : list string :=
  match fuel with
  | O => seen
  | S fuel' =>
      backward fuel' g
        (seen ++ filter (fun n => negb (mem n seen))
                        (flat_map (predecessors g) seen))
  end.

(** [ancestors(G, v)] with [v] added, as in the cache of
    [all_pairs_lowest_common_ancestor]; listed in node order. *)
Definition ancestors_and_self (g : DiGraph) (v : string) : list string :=
  let back := backward (List.length (nodes g)) g [v] in
  filter (fun n => mem n back) (nodes g).

(** From a common ancestor, step to a successor that is a common
    ancestor too, as long as there is one. *)
Fixpoint lower (fuel : nat) (g : DiGraph) (common : list string) (a : string)
  : string :=
  match fuel with
  | O => a
  | S fuel' =>
      match filter (fun s => mem s common) (successors g a) with
      | [] => a
      | s :: _ => lower fuel' g common s
      end
  end.

(** [lowest_common_ancestor(G, v, w)].  The library starts from an
    arbitrary element of the set of common ancestors (the first one
    that the set iterator gives); the model takes the first in node
    order. *)
Definition lowest_common_ancestor (g : DiGraph) (v w : string)
  : result (option string) :=
  if negb (is_directed_acyclic_graph g) then Err NetworkXError
  else if (List.length (nodes g) =? 0) then Err NetworkXPointlessConcept
  else if negb (has_node g v && has_node g w) then Err NodeNotFound
  else
    let common :=
      filter (fun n => mem n (ancestors_and_self g w)) (ancestors_and_self g v) in
    match common with
    | [] => Ok None
    | a :: _ => Ok (Some (lower (List.length (nodes g)) g common a))
    end.

(** The nodes reached from one of [seen], [seen] included. *)
Fixpoint forward (fuel : nat) (g : DiGraph) (seen : list string) : list string :=
  match fuel with
  | O => seen
  | S fuel' =>
      forward fuel' g
        (seen ++ filter (fun n => negb (mem n seen))
                        (flat_map (successors g) seen))
  end.

(** [has_path(G, source, target)]: whether a shortest path exists; a
    node that is not in [G] raises [NodeNotFound]. *)
Definition has_path (g : DiGraph) (source target : string) : result bool :=
  if negb (has_node g source && has_node g target) then Err NodeNotFound
  else Ok (mem target (forward (List.length (nodes g)) g [source])).

(** The invariant of the library: the nodes are distinct, there is at
    most one edge from a node to another, and an edge joins nodes of
    the graph. *)
Definition key (e : edge) : string * string := fst e.

Record wf (g : DiGraph) : Prop := mkWf {
  wf_nodes : NoDup (nodes g);
  wf_keys : NoDup (map key (edges g));
  wf_ends : forall e, In e (edges g) -> In (src e) (nodes g) /\ In (dst e) (nodes g)
}.

End Nx.

Import Nx.

(** ** Statistics, numpy and random *)

Module Stats.

Definition sumZ (l : list Z) : Z := fold_right Z.add 0%Z l.
Definition sumQ (l : list Q) : Q := fold_right Qplus 0%Q l.

(** The integer nearest to [x], the even one of two that are equally
    near. *)
Definition round_half_even (x : Q) : Z :=
  let fl := Qfloor x in
  match Qcompare (x - inject_Z fl) (1 # 2) with
  | Lt => fl
  | Gt => (fl + 1)%Z
  | Eq => if Z.even fl then fl else (fl + 1)%Z
  end.

(** The exponent of the last bit of the double nearest to [q > 0]:
    [q / 2^e] has 53 bits before the point, and [e] is not below the
    exponent of the subnormal numbers. *)
Definition float_exponent (q : Q) : Z :=
  let s := (Z.log2 (Qnum q) - Z.log2 (Zpos (Qden q)))%Z in
  let fl := if Qle_bool (2 ^ s) q then s else (s - 1)%Z in
  Z.max (fl - 52) (-1074).

Definition round_to_float (q : Q) : Q :=
  let e := float_exponent q in
  (inject_Z (round_half_even (q / 2 ^ e)) * 2 ^ e)%Q.

Definition nearest_float (q : Q) : Q :=
  match Qcompare q 0 with
  | Eq => 0%Q
  | Gt => round_to_float q
  | Lt => (- round_to_float (- q))%Q
  end.

(** [numerator / denominator] on two integers, the conversion of a
    fraction to [float]: the nearest double, ties to even, and
    [OverflowError] when it is beyond the doubles. *)
Definition to_float (q : Q) : result Q :=
  let r := nearest_float q in
  if Qle_bool (2 ^ 1024) (Qabs r) then Err OverflowError else Ok (Qred r).

(** [statistics.mean] on integers: the exact quotient of the sum by the
    count, returned as an [int] when it is whole and converted to
    [float] otherwise. *)
Definition mean (data : list Z) : result Q :=
  match data with
  | [] => Err StatisticsError
  | _ :: _ =>
      let total := sumZ data in
      let n := Z.of_nat (List.length data) in
      if (total mod n =? 0)%Z then Ok (inject_Z (total / n))
      else to_float (Qmake total (Pos.of_nat (List.length data)))
  end.

Definition meanQ (data : list Q) : Q :=
  (sumQ data / inject_Z (Z.of_nat (List.length data)))%Q.

(** The sample variance, computed exactly; [statistics.stdev] raises
    [StatisticsError] below two data points. *)
Definition variance (data : list Q) : result Q :=
  if List.length data <? 2 then Err StatisticsError
  else
    let m := meanQ data in
    Ok (sumQ (map (fun x => (x - m) * (x - m)) data)
        / inject_Z (Z.of_nat (List.length data - 1)))%Q.

(** [statistics.stdev(data) != 0].  The deviation is the square root of
    the exact variance, rounded to the nearest double: it is [0.0] when
    the root is at most [2^-1075], and the conversion raises
    [OverflowError] when the root is [2^1024 - 2^970] or more. *)
Definition stdev_nonzero (data : list Q) : result bool :=
  v <- variance data ;;
  if Qle_bool ((2 ^ 1024 - 2 ^ 970) * (2 ^ 1024 - 2 ^ 970)) v
  then Err OverflowError
  else Ok (negb (Qle_bool v (2 ^ (-2150)))).

(** [np.array(l).argmax()]: the first position of the greatest
    element; an empty array raises [ValueError].  numpy compares the
    elements as it stores them; the model compares their exact values,
    which is the same on every list whose numbers a double holds
    exactly (the floats, and the integers below [2^53] in absolute
    value). *)
Fixpoint argmax_from (best : Q) (best_i i : nat) (l : list Q) : nat :=
  match l with
  | [] => best_i
  | x :: l' =>
      if Qle_bool x best
      then argmax_from best best_i (S i) l'
      else argmax_from x i (S i) l'
  end.

Definition argmax (l : list Q) : result nat :=
  match l with
  | [] => Err ValueError
  | x :: l' => Ok (argmax_from x 0 1 l')
  end.

(** The state of the random generator is a number whose digits are
    consumed by the draws: every finite sequence of draws is the one
    of some state. *)
Definition random_state : Type := nat.

(** [randint(a, b)]: an integer of [a..b], both bounds included. *)
Definition randint (st : random_state) (a b : nat) : result (nat * random_state) :=
  if b <? a then Err ValueError
  else Ok (a + st mod (b - a + 1), st / (b - a + 1)).

End Stats.

Import Stats.

(** ** Graph construction and simplification *)

(** [build_graph]: one [add_edge] per entry of the dictionary, from
    [seq[:-1]] to [seq[1:]]. *)
Definition kmer_prefix (seq : string) : string := str_slice seq None (Some (-1)%Z).
Definition kmer_suffix (seq : string) : string := str_slice seq (Some 1%Z) None.

Definition add_kmer (graph : DiGraph) (item : string * Z) : DiGraph :=
  let '(seq, w) := item in
  add_edge graph (kmer_prefix seq) (kmer_suffix seq) w.

Definition build_graph (kmer_dict : dict) : DiGraph :=
  fold_left add_kmer kmer_dict Nx.empty.

(** The nodes of one path that [remove_paths] hands to
    [remove_nodes_from], by the two flags. *)
Definition doomed (delete_entry_node delete_sink_node : bool) (path : list string)
  : list string :=
  if delete_entry_node && delete_sink_node then path
  else if delete_entry_node then list_slice path None (Some (-1)%Z)
  else if delete_sink_node then list_slice path (Some 1%Z) None
  else list_slice path (Some 1%Z) (Some (-1)%Z).

Definition remove_paths (graph : DiGraph) (path_list : list (list string))
    (delete_entry_node delete_sink_node : bool) : DiGraph :=
  fold_left
    (fun graph path =>
       remove_nodes_from graph (doomed delete_entry_node delete_sink_node path))
    path_list graph.

(** The first part of [select_best_path]: the two standard deviations
    and the index that they select. *)
Definition select_index (st : random_state) (path_list : list (list string))
    (path_length : list Z) (weight_avg_list : list Q)
  : result (nat * random_state) :=
  stdev_weight <-
    (if 1 <? List.length weight_avg_list
     then stdev_nonzero weight_avg_list else Ok false) ;;
  stdev_length <-
    (if 1 <? List.length weight_avg_list
     then stdev_nonzero (map inject_Z path_length) else Ok false) ;;
  if stdev_weight : bool then
    index <- argmax weight_avg_list ;; Ok (index, st)
  else if stdev_length : bool then
    index <- argmax (map inject_Z path_length) ;; Ok (index, st)
  else randint st 0 (List.length path_list).

(** [select_best_path]: the graph after the call (the value returned)
    and the state of the random generator. *)
Definition select_best_path (st : random_state) (graph : DiGraph)
    (path_list : list (list string)) (path_length : list Z)
    (weight_avg_list : list Q) (delete_entry_node delete_sink_node : bool)
  : result (DiGraph * random_state) :=
  r <- select_index st path_list path_length weight_avg_list ;;
  let '(index, st') := r in
  losers <- list_pop (G := DiGraph) path_list (IntArg (Z.of_nat index)) ;;
  Ok (remove_paths graph losers delete_entry_node delete_sink_node, st').

(** [path_average_weight]: the mean of the weights of the edges of the
    subgraph on the nodes of the path. *)
Definition path_average_weight (graph : DiGraph) (path : list string) : result Q :=
  mean (map weight (edges (subgraph graph path))).

Definition solve_bubble (st : random_state) (graph : DiGraph)
    (ancestor_node descendant_node : string) : result (DiGraph * random_state) :=
  path_list <- all_simple_paths graph ancestor_node descendant_node ;;
  weight_avg_list <- mapM (path_average_weight graph) path_list ;;
  let len_list := map (fun path => Z.of_nat (List.length path)) path_list in
  select_best_path st graph path_list len_list weight_avg_list false false.

(** The variables [bubble], [ancestor_node] and [node] of
    [simplify_bubbles] while the graph is scanned.  An unbound variable
    and [None] are both [None]. *)
Record scan : Type := mkScan {
  bubble : bool;
  ancestor_node : option string;
  node : option string
}.

(** [for j in range(i+1, len(predecessors))]: the [break] leaves this
    loop only. *)
Fixpoint scan_j (graph : DiGraph) (pred_i : string) (preds_j : list string)
    (s : scan) : result scan :=
  match preds_j with
  | [] => Ok s
  | pred_j :: rest =>
      a <- lowest_common_ancestor graph pred_i pred_j ;;
      match a with
      | Some _ => Ok (mkScan true a (node s))
      | None => scan_j graph pred_i rest (mkScan (bubble s) None (node s))
      end
  end.

(** [for i in range(0, len(predecessors))] *)
Fixpoint scan_i (graph : DiGraph) (preds : list string) (s : scan) : result scan :=
  match preds with
  | [] => Ok s
  | pred_i :: rest =>
      s' <- scan_j graph pred_i rest s ;;
      scan_i graph rest s'
  end.

(** [for node in graph.nodes()] *)
Fixpoint scan_nodes (graph : DiGraph) (todo : list string) (s : scan) : result scan :=
  match todo with
  | [] => Ok s
  | n :: rest =>
      let s0 := mkScan (bubble s) (ancestor_node s) (Some n) in
      let predecessors := predecessors graph n in
      s' <- (if 1 <? List.length predecessors
             then scan_i graph predecessors s0 else Ok s0) ;;
      scan_nodes graph rest s'
  end.

(** [simplify_bubbles]: [depth] is the number of nested calls that the
    interpreter still allows; when it is used up the call raises
    [RecursionError]. *)
Fixpoint simplify_bubbles (depth : nat) (st : random_state) (graph : DiGraph)
  : result (DiGraph * random_state) :=
  match depth with
  | O => Err RecursionError
  | S depth' =>
      s <- scan_nodes graph (nodes graph) (mkScan false None None) ;;
      if bubble s then
        match ancestor_node s, node s with
        | Some a, Some n =>
            r <- solve_bubble st graph a n ;;
            simplify_bubbles depth' (snd r) (fst r)
        | _, _ => Err NodeNotFound
        end
      else Ok (graph, st)
  end.

(** [list(set(predecessors).intersection(starting_nodes))]; the order
    of a Python set is arbitrary, the model keeps the one of the
    predecessors. *)
Definition tip_predecessors (graph : DiGraph) (starting_nodes : list string)
    (n : string) : list string :=
  filter (fun p => mem p starting_nodes) (nodup string_dec (predecessors graph n)).

(** [remove_paths(graph, paths, True, False)] where every element of
    [paths] is itself a list of paths: [remove_nodes_from] is given
    lists, which cannot be keys of a dictionary. *)
Definition remove_paths_of_lists (graph : DiGraph)
    (paths : list (list (list string))) : result DiGraph :=
  fold_left
    (fun r path =>
       g <- r ;;
       match list_slice path None (Some (-1)%Z) with
       | [] => Ok g
       | _ :: _ => Err TypeError
       end)
    paths (Ok graph).

(** The body of the loop of [solve_entry_tips] for a node with more
    than one tip predecessor.  [paths.pop(best_path)] raises after the
    selector has run: the graph that the call leaves behind is the one
    of the selector, which may have lost inner nodes of the losing
    paths; the embedding gives the exception. *)
Definition resolve_tips (st : random_state) (graph : DiGraph)
    (tips : list string) (n : string) : result (DiGraph * random_state) :=
  paths <- mapM (fun tip_pred => all_simple_paths graph tip_pred n) tips ;;
  scored <-
    mapM (fun path : list (list string) =>
            match path with
            | [] => Err IndexError
            | path0 :: _ =>
                avg_weight <- path_average_weight graph path0 ;;
                Ok (path0, Z.of_nat (List.length path0), avg_weight)
            end) paths ;;
  let path_list := map (fun x => fst (fst x)) scored in
  let len_list := map (fun x => snd (fst x)) scored in
  let weight_avg_list := map snd scored in
  r <- select_best_path st graph path_list len_list weight_avg_list false false ;;
  let best_path := fst r in
  paths' <- list_pop paths (ObjArg best_path) ;;
  graph' <- remove_paths_of_lists best_path paths' ;;
  Ok (graph', snd r).

(** [for node in graph.nodes()] over a graph that the body may change:
    the iterator raises [RuntimeError] when the number of nodes is not
    the one it started with ([size]). *)
Fixpoint entry_tips_loop (size : nat) (todo : list string) (st : random_state)
    (graph : DiGraph) (starting_nodes : list string)
  : result (DiGraph * random_state) :=
  if negb (List.length (nodes graph) =? size) then Err RuntimeError
  else
    match todo with
    | [] => Ok (graph, st)
    | n :: rest =>
        let tips := tip_predecessors graph starting_nodes n in
        r <- (if 1 <? List.length tips
              then resolve_tips st graph tips n else Ok (graph, st)) ;;
        entry_tips_loop size rest (snd r) (fst r) starting_nodes
    end.

Definition solve_entry_tips (st : random_state) (graph : DiGraph)
    (starting_nodes : list string) : result (DiGraph * random_state) :=
  entry_tips_loop (List.length (nodes graph)) (nodes graph) st graph starting_nodes.

(** [solve_out_tips]: the body is [pass]; the graph is left as it is
    and the call returns [None]. *)
Definition solve_out_tips (graph : DiGraph) (ending_nodes : list string)
  : result (DiGraph * option DiGraph) :=
  Ok (graph, None).

Definition get_starting_nodes (graph : DiGraph) : list string :=
  filter (fun n => match predecessors graph n with [] => true | _ => false end)
         (nodes graph).

Definition get_sink_nodes (graph : DiGraph) : list string :=
  filter (fun n => match successors graph n with [] => true | _ => false end)
         (nodes graph).

(** ** Contigs *)

(** [s[-1]]: the last character; the empty string has none. *)
Definition last_char (s : string) : result ascii :=
  match rev (list_ascii_of_string s) with
  | [] => Err IndexError
  | c :: _ => Ok c
  end.

(** [for i in range(1, len(path)): contig += path[i][-1]] *)
Fixpoint extend_contig (contig : string) (rest : list string) : result string :=
  match rest with
  | [] => Ok contig
  | n :: rest' =>
      c <- last_char n ;;
      extend_contig (contig ++ String c "")%string rest'
  end.

(** The body of the second loop of [get_contigs]: the contig of one
    path and its length. *)
Definition contig_of_path (path : list string) : result (string * nat) :=
  match path with
  | [] => Err IndexError
  | first :: rest =>
      contig <- extend_contig first rest ;;
      Ok (contig, String.length contig)
  end.

(** The body of the first loop of [get_contigs] for one pair of
    nodes. *)
Definition paths_between (graph : DiGraph) (start end_ : string)
  : result (list (list string)) :=
  connected <- has_path graph start end_ ;;
  if connected : bool then all_simple_paths graph start end_ else Ok [].

Definition get_contigs (graph : DiGraph) (starting_nodes ending_nodes : list string)
  : result (list (string * nat)) :=
  found <-
    mapM (fun start =>
            per_end <- mapM (paths_between graph start) ending_nodes ;;
            Ok (List.concat per_end))
         starting_nodes ;;
  mapM contig_of_path (List.concat found).

(** ** Vocabulary of the statements *)

(** The pairs of consecutive nodes of a path: the edges that it
    traverses. *)
Fixpoint steps (path : list string) : list (string * string) :=
  match path with
  | a :: (b :: _) as rest => (a, b) :: steps rest
  | _ => []
  end.

(** The nodes of a path that each setting of the flags deletes, in
    terms of the first node, the last node and the rest. *)
Definition deleted_nodes (delete_entry_node delete_sink_node : bool)
    (path : list string) : list string :=
  match delete_entry_node, delete_sink_node with
  | true, true => path
  | true, false => removelast path
  | false, true => tl path
  | false, false => removelast (tl path)
  end.

(** [counts d l]: the dictionary [d] holds, for every string, the
    number of its occurrences in [l], and no entry for the others. *)
Definition counts (d : dict) (l : list string) : Prop :=
  forall s,
    dict_get d s =
      (if count_occ string_dec l s =? 0 then None
       else Some (Z.of_nat (count_occ string_dec l s))).

(** [first_max l i]: [i] is the first position of a greatest element
    of [l]. *)
Definition first_max (l : list Q) (i : nat) : Prop :=
  i < List.length l /\
  forall j, j < List.length l ->
    (nth j l 0 <= nth i l 0)%Q /\ (j < i -> (nth j l 0 < nth i l 0)%Q).

(** [is_float64 r]: [r] is the value of a double, a whole number of
    less than 53 bits times a power of two in the range of the
    format. *)
Definition is_float64 (r : Q) : Prop :=
  exists m e : Z,
    (Z.abs m < 2 ^ 53)%Z /\ (-1074 <= e <= 971)%Z /\
    (r == inject_Z m * 2 ^ e)%Q.

(** [nearest_float64 q r]: [r] is a double and no double is nearer to
    [q]. *)
Definition nearest_float64 (q r : Q) : Prop :=
  is_float64 r /\
  forall d, is_float64 d -> (Qabs (r - q) <= Qabs (d - q))%Q.

(** [average_of ws res]: [res] is what the average of the integers
    [ws] is in Python: [StatisticsError] without any number; the exact
    quotient of the sum by the count when it is whole; otherwise a
    double nearest to it, or [OverflowError] when the quotient is
    beyond the doubles. *)
Definition average_of (ws : list Z) (res : result Q) : Prop :=
  let total := fold_right Z.add 0%Z ws in
  let count := Z.of_nat (List.length ws) in
  let quotient := Qmake total (Pos.of_nat (List.length ws)) in
  match res with
  | Err e =>
      (ws = [] /\ e = StatisticsError) \/
      (ws <> [] /\ e = OverflowError /\ (2 ^ 1023 <= Qabs quotient)%Q)
  | Ok r =>
      ws <> [] /\
      ((count | total)%Z -> r = inject_Z (total / count)) /\
      (~ (count | total)%Z -> nearest_float64 quotient r)
  end.

(** The sum of the counts of a dictionary. *)
Definition dict_total (d : dict) : Z := sumZ (map snd d).

(** The number of substrings that [cut_kmer] yields over a list of
    reads, for a size [k >= 1]. *)
Definition emitted (k : nat) (reads : list string) : nat :=
  list_sum (map (fun read => k + String.length read mod k + 1) reads).

(** [overlaps u v]: [u[1:]] is [v[:-1]], the overlap of the two ends of
    a k-mer. *)
Definition overlaps (u v : string) : Prop :=
  str_slice u (Some 1%Z) None = str_slice v None (Some (-1)%Z).

(** [g'] has no node and no edge that [g] has not. *)
Definition subgraph_of (g' g : DiGraph) : Prop :=
  incl (nodes g') (nodes g) /\ incl (edges g') (edges g).

(** The graph [g] without the nodes of [ns] and without the edges at
    them, the other nodes and edges in their order. *)
Definition without_nodes (g : DiGraph) (ns : list string) : DiGraph :=
  mkDiGraph
    (filter (fun m => negb (mem m ns)) (nodes g))
    (filter (fun e => negb (mem (src e) ns) && negb (mem (dst e) ns)) (edges g)).

(** The characters of the contig of a path: the first node, then the
    last character of every other node. *)
Definition last_or_space (s : string) : ascii :=
  last (list_ascii_of_string s) " "%char.

Definition contig_chars (path : list string) : list ascii :=
  match path with
  | [] => []
  | first :: rest => list_ascii_of_string first ++ map last_or_space rest
  end.

(** ** Example graphs *)

(** Two tips [A -> C] and [B -> C] that meet in [C]. *)
Definition two_tips : DiGraph :=
  build_graph [("AC", 1%Z); ("BC", 2%Z)].

(** A bubble between [A] and [D], followed by the edge [D -> E]. *)
Definition bubble_with_tail : DiGraph :=
  build_graph [("AB", 10%Z); ("BD", 10%Z); ("AC", 2%Z); ("CD", 2%Z); ("DE", 10%Z)].

(** The path [A -> B -> C] and the edge [A -> C]. *)
Definition triangle : DiGraph :=
  build_graph [("AB", 5%Z); ("BC", 5%Z); ("AC", 1%Z)].

(** * Properties *)

(** ** Slices *)

Lemma clamp_minus_one n : clamp n (-1)%Z = Nat.pred n.
Proof. unfold clamp. change (-1 <? 0)%Z with true. cbv iota. lia. Qed.

Lemma clamp_one n : clamp n 1%Z = Nat.min 1 n.
Proof. reflexivity. Qed.

Section Slices.

Context {A : Type}.
Implicit Types l : list A.

Lemma slice_window l (i k : nat) :
  list_slice l (Some (Z.of_nat i)) (Some (Z.of_nat (i + k))) = firstn k (skipn i l).
Proof.
  unfold list_slice, slice_bounds, clamp.
  destruct (Z.ltb_spec (Z.of_nat i) 0); [lia|].
  destruct (Z.ltb_spec (Z.of_nat (i + k)) 0); [lia|].
  rewrite !Nat2Z.id.
  destruct (Nat.le_gt_cases i (List.length l)) as [Hi | Hi].
  - rewrite (Nat.min_l i) by lia.
    rewrite <- (firstn_all (skipn i l)) at 2.
    rewrite firstn_firstn, length_skipn. f_equal. lia.
  - rewrite (Nat.min_r i) by lia. rewrite (Nat.min_r (i + k)) by lia.
    rewrite Nat.sub_diag, skipn_all. simpl.
    rewrite skipn_all2 by lia. now rewrite firstn_nil.
Qed.

Lemma slice_drop_last l : list_slice l None (Some (-1)%Z) = removelast l.
Proof.
  unfold list_slice, slice_bounds. rewrite clamp_minus_one, Nat.sub_0_r.
  now rewrite removelast_firstn_len.
Qed.

Lemma slice_tail l : list_slice l (Some 1%Z) None = tl l.
Proof.
  unfold list_slice, slice_bounds. rewrite clamp_one.
  destruct l as [| a l]; simpl; [reflexivity|].
  rewrite Nat.sub_0_r. apply firstn_all.
Qed.

Lemma slice_interior l : list_slice l (Some 1%Z) (Some (-1)%Z) = removelast (tl l).
Proof.
  unfold list_slice, slice_bounds. rewrite clamp_one, clamp_minus_one.
  destruct l as [| a l]; simpl; [reflexivity|].
  rewrite removelast_firstn_len. f_equal. lia.
Qed.

End Slices.

Lemma length_list_ascii s : List.length (list_ascii_of_string s) = String.length s.
Proof. induction s; simpl; congruence. Qed.

Lemma length_string_of_list l : String.length (string_of_list_ascii l) = List.length l.
Proof. induction l; simpl; congruence. Qed.

Lemma str_slice_length read (i k : nat) :
  String.length (str_slice read (Some (Z.of_nat i)) (Some (Z.of_nat (i + k))))
  = Nat.min k (String.length read - i).
Proof.
  unfold str_slice. rewrite length_string_of_list, slice_window.
  now rewrite length_firstn, length_skipn, length_list_ascii.
Qed.

Lemma str_slice_past_end read (i k : nat) :
  String.length read <= i ->
  str_slice read (Some (Z.of_nat i)) (Some (Z.of_nat (i + k))) = "".
Proof.
  intros Hi. unfold str_slice. rewrite slice_window.
  rewrite skipn_all2 by (rewrite length_list_ascii; lia).
  now rewrite firstn_nil.
Qed.

(** ** The dictionary of counts *)

Lemma eqb_sym_false (a b : string) : a <> b -> String.eqb a b = false.
Proof. intros H. now apply String.eqb_neq. Qed.

Lemma dict_get_set d k v s :
  dict_get (dict_set d k v) s = if String.eqb k s then Some v else dict_get d s.
Proof.
  induction d as [| [k' v'] d IH]; simpl.
  - reflexivity.
  - destruct (String.eqb_spec k' k) as [-> | Hk]; simpl.
    + destruct (String.eqb k s); reflexivity.
    + rewrite IH. destruct (String.eqb_spec k' s) as [-> | Hs].
      * rewrite eqb_sym_false by congruence. reflexivity.
      * reflexivity.
Qed.

Lemma dict_keys_set d k v :
  dict_keys (dict_set d k v) = if mem k (dict_keys d) then dict_keys d else dict_keys d ++ [k].
Proof.
  unfold dict_keys, mem.
  induction d as [| [k' v'] d IH]; simpl.
  - reflexivity.
  - rewrite (String.eqb_sym k k').
    destruct (String.eqb_spec k' k) as [-> | Hk]; simpl.
    + reflexivity.
    + rewrite IH. now destruct (existsb (String.eqb k) (map fst d)).
Qed.

Lemma mem_In n l : mem n l = true <-> In n l.
Proof.
  unfold mem. rewrite existsb_exists. split.
  - intros [x [Hx Hn]]. apply String.eqb_eq in Hn. now subst.
  - intros H. exists n. split; [assumption | apply String.eqb_refl].
Qed.

Lemma mem_not_In n l : mem n l = false <-> ~ In n l.
Proof.
  rewrite <- mem_In. destruct (mem n l); split; congruence.
Qed.

Lemma counts_count_kmer d l kmer :
  counts d l -> counts (count_kmer d kmer) (l ++ [kmer]).
Proof.
  intros H s. unfold count_kmer.
  rewrite count_occ_app. simpl.
  pose proof (H kmer) as Hk. pose proof (H s) as Hs.
  destruct (dict_get d kmer) as [n |] eqn:E; rewrite dict_get_set;
    destruct (String.eqb_spec kmer s) as [-> | Hne].
  - destruct (string_dec s s); [| congruence].
    rewrite E in Hs.
    destruct (count_occ string_dec l s =? 0) eqn:E0; [discriminate|].
    apply Nat.eqb_neq in E0. injection Hs as ->.
    destruct (Nat.eqb_spec (count_occ string_dec l s + 1) 0); [lia|].
    f_equal. lia.
  - destruct (string_dec kmer s); [congruence|]. now rewrite Nat.add_0_r.
  - destruct (string_dec s s); [| congruence].
    rewrite E in Hs.
    destruct (Nat.eqb_spec (count_occ string_dec l s) 0) as [-> |]; [| discriminate].
    reflexivity.
  - destruct (string_dec kmer s); [congruence|]. now rewrite Nat.add_0_r.
Qed.

Lemma counts_fold d l kmers :
  counts d l -> counts (fold_left count_kmer kmers d) (l ++ kmers).
Proof.
  revert d l. induction kmers as [| kmer kmers IH]; intros d l H; simpl.
  - now rewrite app_nil_r.
  - replace (l ++ kmer :: kmers) with ((l ++ [kmer]) ++ kmers)
      by (now rewrite <- app_assoc).
    apply IH. now apply counts_count_kmer.
Qed.

Lemma NoDup_keys_count_kmer d kmer :
  NoDup (dict_keys d) -> NoDup (dict_keys (count_kmer d kmer)).
Proof.
  intros H. unfold count_kmer.
  assert (forall v, NoDup (dict_keys (dict_set d kmer v))) as Hset.
  { intros v. rewrite dict_keys_set.
    destruct (mem kmer (dict_keys d)) eqn:E; [assumption|].
    apply mem_not_In in E.
    apply NoDup_app; [assumption | repeat constructor; simpl; tauto |].
    intros x Hx [<- | []]. contradiction. }
  destruct (dict_get d kmer); apply Hset.
Qed.

Lemma NoDup_keys_fold kmers d :
  NoDup (dict_keys d) -> NoDup (dict_keys (fold_left count_kmer kmers d)).
Proof.
  revert d. induction kmers as [| kmer kmers IH]; intros d H; simpl.
  - assumption.
  - apply IH. now apply NoDup_keys_count_kmer.
Qed.

Lemma cut_kmer_ok read k :
  1 <= k ->
  cut_kmer read k =
    Ok (map (fun i => str_slice read (Some (Z.of_nat i)) (Some (Z.of_nat (i + k))))
            (seq 0 (k + String.length read mod k + 1))).
Proof. intros Hk. destruct k; [lia | reflexivity]. Qed.

Lemma count_reads_counts k reads :
  1 <= k ->
  forall d l, counts d l -> NoDup (dict_keys d) ->
  exists kmers d',
    mapM (fun read => cut_kmer read k) reads = Ok kmers /\
    count_reads d reads k = Ok d' /\
    counts d' (l ++ List.concat kmers) /\
    NoDup (dict_keys d').
Proof.
  intros Hk. induction reads as [| read reads IH]; intros d l Hd Hnd; simpl.
  - exists [], d. simpl. rewrite app_nil_r. auto.
  - rewrite (cut_kmer_ok read k Hk). simpl.
    set (ks := map _ (seq 0 _)).
    destruct (IH (fold_left count_kmer ks d) (l ++ ks)) as (kmers & d' & Hm & Hc & Hcnt & Hnd').
    { now apply counts_fold. }
    { now apply NoDup_keys_fold. }
    exists (ks :: kmers), d'. rewrite Hm. simpl.
    rewrite app_assoc. auto.
Qed.

(** ** Adding edges *)

Lemma has_node_In g n : has_node g n = true <-> In n (nodes g).
Proof. apply mem_In. Qed.

Lemma add_node_nodes g n m :
  In m (nodes (add_node g n)) <-> In m (nodes g) \/ m = n.
Proof.
  unfold add_node. destruct (has_node g n) eqn:E; simpl.
  - apply has_node_In in E. split; [tauto | intros [H | ->]; assumption].
  - rewrite in_app_iff. simpl. intuition congruence.
Qed.

Lemma add_node_edges g n : edges (add_node g n) = edges g.
Proof. unfold add_node. now destruct (has_node g n). Qed.

Lemma add_node_NoDup g n : NoDup (nodes g) -> NoDup (nodes (add_node g n)).
Proof.
  intros H. unfold add_node. destruct (has_node g n) eqn:E; simpl; [assumption|].
  apply mem_not_In in E.
  apply NoDup_app; [assumption | repeat constructor; simpl; tauto |].
  intros x Hx [<- | []]. contradiction.
Qed.

Lemma key_eqb (e : edge) u v :
  String.eqb (src e) u && String.eqb (dst e) v = true <-> key e = (u, v).
Proof.
  destruct e as [[a b] w]. unfold src, dst, key. simpl.
  rewrite andb_true_iff, !String.eqb_eq. split; [intros [-> ->] | intros [= -> ->]]; auto.
Qed.

Lemma set_edge_In es u v w e :
  In e (set_edge es u v w) -> e = (u, v, w) \/ In e es.
Proof.
  induction es as [| e' es IH]; simpl.
  - intros [<- | []]. now left.
  - destruct (String.eqb (src e') u && String.eqb (dst e') v); simpl; intuition.
Qed.

Lemma set_edge_new es u v w : In (u, v, w) (set_edge es u v w).
Proof.
  induction es as [| e' es IH]; simpl.
  - now left.
  - destruct (String.eqb (src e') u && String.eqb (dst e') v); simpl; auto.
Qed.

Lemma set_edge_keeps es u v w e :
  In e es -> key e <> (u, v) -> In e (set_edge es u v w).
Proof.
  intros He Hk. induction es as [| e' es IH]; simpl in *; [contradiction|].
  destruct (String.eqb (src e') u && String.eqb (dst e') v) eqn:E; simpl.
  - destruct He as [-> | He]; [| now right].
    apply key_eqb in E. contradiction.
  - destruct He as [-> | He]; [now left | right; auto].
Qed.

Lemma set_edge_keys es u v w :
  map key (set_edge es u v w) =
    if existsb (fun e => String.eqb (src e) u && String.eqb (dst e) v) es
    then map key es else map key es ++ [(u, v)].
Proof.
  induction es as [| e' es IH]; simpl; [reflexivity|].
  destruct (String.eqb (src e') u && String.eqb (dst e') v) eqn:E; simpl.
  - apply key_eqb in E. now rewrite E.
  - rewrite IH. now destruct (existsb _ es).
Qed.

Lemma set_edge_length es u v w :
  List.length (set_edge es u v w) <= S (List.length es).
Proof.
  induction es as [| e' es IH]; simpl; [lia|].
  destruct (String.eqb (src e') u && String.eqb (dst e') v); simpl; lia.
Qed.

Lemma set_edge_NoDup es u v w :
  NoDup (map key es) -> NoDup (map key (set_edge es u v w)).
Proof.
  intros H. rewrite set_edge_keys.
  destruct (existsb _ es) eqn:E; [assumption|].
  apply NoDup_app; [assumption | repeat constructor; simpl; tauto |].
  intros k Hk [<- | []].
  apply in_map_iff in Hk as [e [Hke He]].
  assert (existsb (fun e => String.eqb (src e) u && String.eqb (dst e) v) es = true).
  { apply existsb_exists. exists e. split; [assumption | now apply key_eqb]. }
  congruence.
Qed.

Lemma add_edge_nodes g u v w n :
  In n (nodes (add_edge g u v w)) <-> In n (nodes g) \/ n = u \/ n = v.
Proof.
  unfold add_edge. simpl. rewrite !add_node_nodes. tauto.
Qed.

Lemma add_edge_edges g u v w :
  edges (add_edge g u v w) = set_edge (edges g) u v w.
Proof. unfold add_edge. simpl. now rewrite !add_node_edges. Qed.

Lemma add_edge_wf g u v w : wf g -> wf (add_edge g u v w).
Proof.
  intros [Hn Hk He]. split.
  - unfold add_edge. simpl. now apply add_node_NoDup, add_node_NoDup.
  - rewrite add_edge_edges. now apply set_edge_NoDup.
  - intros e. rewrite add_edge_edges. intros H.
    rewrite !add_edge_nodes.
    apply set_edge_In in H as [-> | H].
    + unfold src, dst. simpl. auto.
    + destruct (He e H). auto.
Qed.

Lemma empty_wf : wf Nx.empty.
Proof. split; simpl; [constructor | constructor | contradiction]. Qed.

(** ** The graph of a dictionary *)

Section BuildGraph.

Implicit Types (d : dict) (g : DiGraph).

Lemma build_wf d g : wf g -> wf (fold_left add_kmer d g).
Proof.
  revert g. induction d as [| [s w] d IH]; intros g H; simpl; [assumption|].
  apply IH. now apply add_edge_wf.
Qed.

Lemma build_nodes d g n :
  In n (nodes (fold_left add_kmer d g)) <->
  In n (nodes g) \/
  exists s w, In (s, w) d /\ (n = kmer_prefix s \/ n = kmer_suffix s).
Proof.
  revert g. induction d as [| [s w] d IH]; intros g; simpl.
  - split; [auto | intros [H | (s & w & [] & _)]; assumption].
  - rewrite IH, add_edge_nodes. split.
    + intros [[H | H] | (s' & w' & Hin & H)].
      * now left.
      * right. exists s, w. auto.
      * right. exists s', w'. auto.
    + intros [H | (s' & w' & [E | Hin] & H)].
      * auto.
      * injection E as -> ->. left. right. assumption.
      * right. exists s', w'. auto.
Qed.

Lemma build_edges_origin d g e :
  In e (edges (fold_left add_kmer d g)) ->
  In e (edges g) \/
  exists s w, In (s, w) d /\ e = (kmer_prefix s, kmer_suffix s, w).
Proof.
  revert g. induction d as [| [s w] d IH]; intros g; simpl; [auto|].
  intros H. apply IH in H as [H | (s' & w' & Hin & ->)].
  - rewrite add_edge_edges in H. apply set_edge_In in H as [-> | H].
    + right. exists s, w. auto.
    + now left.
  - right. exists s', w'. auto.
Qed.

Lemma build_edges_length d g :
  List.length (edges (fold_left add_kmer d g)) <= List.length (edges g) + List.length d.
Proof.
  revert g. induction d as [| [s w] d IH]; intros g; simpl; [lia|].
  specialize (IH (add_edge g (kmer_prefix s) (kmer_suffix s) w)).
  rewrite add_edge_edges in IH.
  pose proof (set_edge_length (edges g) (kmer_prefix s) (kmer_suffix s) w). lia.
Qed.

(** An edge survives the entries that do not have its end points. *)
Lemma build_edge_kept d g e :
  In e (edges g) ->
  (forall s w, In (s, w) d -> (kmer_prefix s, kmer_suffix s) <> key e) ->
  In e (edges (fold_left add_kmer d g)).
Proof.
  revert g. induction d as [| [s w] d IH]; intros g He Hd; simpl; [assumption|].
  apply IH.
  - rewrite add_edge_edges. apply set_edge_keeps; [assumption|].
    intros E. apply (Hd s w); [now left | now symmetry].
  - intros s' w' Hin. apply (Hd s' w'). now right.
Qed.

(** The end points of an edge stay joined, whatever the weight. *)
Lemma build_key_kept d g k :
  In k (map key (edges g)) -> In k (map key (edges (fold_left add_kmer d g))).
Proof.
  revert g. induction d as [| [s w] d IH]; intros g H; simpl; [assumption|].
  apply IH. rewrite add_edge_edges, set_edge_keys.
  destruct (existsb _ (edges g)); [assumption | apply in_or_app; now left].
Qed.

Lemma build_entry_edge d g s w :
  In (s, w) d ->
  exists w', In (kmer_prefix s, kmer_suffix s, w') (edges (fold_left add_kmer d g)).
Proof.
  intros Hin. apply in_split in Hin as (d1 & d2 & ->).
  rewrite fold_left_app. simpl.
  set (g1 := fold_left add_kmer d1 g).
  assert (In (kmer_prefix s, kmer_suffix s)
             (map key (edges (fold_left add_kmer d2
                (add_edge g1 (kmer_prefix s) (kmer_suffix s) w))))) as H.
  { apply build_key_kept. rewrite add_edge_edges.
    apply in_map_iff. exists (kmer_prefix s, kmer_suffix s, w).
    split; [reflexivity | apply set_edge_new]. }
  apply in_map_iff in H as [[[a b] w'] [Hk He]].
  unfold key in Hk. simpl in Hk. injection Hk as -> ->.
  now exists w'.
Qed.

End BuildGraph.

(** A string of two characters or more is known by its two slices. *)
Lemma ends_determine_list {A : Type} (l1 l2 : list A) :
  2 <= List.length l1 -> removelast l1 = removelast l2 -> tl l1 = tl l2 -> l1 = l2.
Proof.
  destruct l1 as [| a [| b r]]; simpl; try lia. intros _.
  destruct l2 as [| a' [| b' r']]; simpl; try discriminate.
  intros [= -> _] [= -> ->]. reflexivity.
Qed.

Lemma string_of_list_inj l1 l2 :
  string_of_list_ascii l1 = string_of_list_ascii l2 -> l1 = l2.
Proof.
  intros H. apply (f_equal list_ascii_of_string) in H.
  now rewrite !list_ascii_of_string_of_list_ascii in H.
Qed.

Lemma ends_determine_kmer s t :
  2 <= String.length s ->
  kmer_prefix s = kmer_prefix t -> kmer_suffix s = kmer_suffix t -> s = t.
Proof.
  unfold kmer_prefix, kmer_suffix, str_slice. intros Hlen Hp Hs.
  apply string_of_list_inj in Hp, Hs.
  rewrite !slice_drop_last in Hp. rewrite !slice_tail in Hs.
  rewrite <- (string_of_list_ascii_of_string s), <- (string_of_list_ascii_of_string t).
  f_equal. apply ends_determine_list; [now rewrite length_list_ascii | assumption..].
Qed.

Lemma build_entry_weight d s w :
  NoDup (dict_keys d) -> In (s, w) d -> 2 <= String.length s ->
  In (kmer_prefix s, kmer_suffix s, w) (edges (build_graph d)).
Proof.
  intros Hnd Hin Hlen. unfold build_graph.
  apply in_split in Hin as (d1 & d2 & ->).
  rewrite fold_left_app. simpl.
  apply build_edge_kept.
  - rewrite add_edge_edges. apply set_edge_new.
  - intros s' w' Hin' [= Hp Hs].
    assert (s = s') as <- by (apply ends_determine_kmer; auto).
    unfold dict_keys in Hnd. rewrite map_app in Hnd. simpl in Hnd.
    apply NoDup_remove_2 in Hnd. apply Hnd, in_or_app. right.
    apply in_map_iff. now exists (s, w').
Qed.

(** ** Removing nodes *)

Section RemoveNodes.

Implicit Types (g : DiGraph) (n m : string) (e : edge).

Lemma remove_node_nodes g n m :
  In m (nodes (remove_node g n)) <-> In m (nodes g) /\ m <> n.
Proof.
  unfold remove_node. destruct (has_node g n) eqn:E; simpl.
  - rewrite filter_In, negb_true_iff, String.eqb_neq. tauto.
  - apply mem_not_In in E. split; [| tauto].
    intros H. split; [assumption | intros ->; contradiction].
Qed.

Lemma remove_node_edges g n e :
  wf g ->
  (In e (edges (remove_node g n)) <-> In e (edges g) /\ src e <> n /\ dst e <> n).
Proof.
  intros Hwf. unfold remove_node. destruct (has_node g n) eqn:E; simpl.
  - rewrite filter_In, andb_true_iff, !negb_true_iff, !String.eqb_neq. tauto.
  - apply mem_not_In in E. split; [| tauto].
    intros H. destruct (wf_ends g Hwf e H) as [Hs Hd].
    repeat split; [assumption | |]; intros <-; contradiction.
Qed.

Lemma keys_filter_NoDup (keep : edge -> bool) (es : list edge) :
  NoDup (map key es) -> NoDup (map key (filter keep es)).
Proof.
  induction es as [| e es IH]; intros Hnd; [exact Hnd|].
  change (NoDup (key e :: map key es)) in Hnd.
  apply NoDup_cons_iff in Hnd as [Hfresh Hrest].
  simpl. destruct (keep e); [| now apply IH].
  apply NoDup_cons; [| now apply IH].
  intros Hin. apply Hfresh.
  apply in_map_iff in Hin as [e' [Hk He']].
  apply filter_In in He' as [He' _].
  rewrite <- Hk. now apply in_map.
Qed.

Lemma remove_node_wf g n : wf g -> wf (remove_node g n).
Proof.
  intros Hwf. split.
  - unfold remove_node. destruct (has_node g n); simpl;
      [apply NoDup_filter |]; apply (wf_nodes g Hwf).
  - unfold remove_node. destruct (has_node g n); simpl;
      [apply keys_filter_NoDup |]; apply (wf_keys g Hwf).
  - intros e He. apply (remove_node_edges g n e Hwf) in He as (He & Hs & Hd).
    rewrite !remove_node_nodes. destruct (wf_ends g Hwf e He). tauto.
Qed.

Lemma remove_nodes_from_wf ns g : wf g -> wf (remove_nodes_from g ns).
Proof.
  unfold remove_nodes_from. revert g.
  induction ns as [| n ns IH]; intros g H; simpl; [assumption|].
  apply IH. now apply remove_node_wf.
Qed.

Lemma remove_nodes_from_nodes ns g m :
  In m (nodes (remove_nodes_from g ns)) <-> In m (nodes g) /\ ~ In m ns.
Proof.
  unfold remove_nodes_from. revert g.
  induction ns as [| n ns IH]; intros g; simpl; [tauto|].
  rewrite IH, remove_node_nodes. intuition congruence.
Qed.

Lemma remove_nodes_from_edges ns g e :
  wf g ->
  (In e (edges (remove_nodes_from g ns)) <->
   In e (edges g) /\ ~ In (src e) ns /\ ~ In (dst e) ns).
Proof.
  unfold remove_nodes_from. revert g.
  induction ns as [| n ns IH]; intros g Hwf; simpl; [tauto|].
  rewrite IH by (now apply remove_node_wf).
  rewrite remove_node_edges by assumption. intuition congruence.
Qed.

Lemma remove_paths_wf paths g de ds : wf g -> wf (remove_paths g paths de ds).
Proof.
  unfold remove_paths. revert g.
  induction paths as [| p paths IH]; intros g H; simpl; [assumption|].
  apply IH. now apply remove_nodes_from_wf.
Qed.

Lemma remove_paths_nodes paths g de ds m :
  In m (nodes (remove_paths g paths de ds)) <->
  In m (nodes g) /\ forall p, In p paths -> ~ In m (doomed de ds p).
Proof.
  unfold remove_paths. revert g.
  induction paths as [| p paths IH]; intros g; simpl.
  - split; [intros H; split; [assumption | intros p []] | tauto].
  - rewrite IH, remove_nodes_from_nodes. split.
    + intros [[Hm Hp] Hps]. split; [assumption|].
      intros q [<- | Hq]; auto.
    + intros [Hm H]. repeat split; auto.
Qed.

Lemma remove_paths_edges paths g de ds e :
  wf g ->
  (In e (edges (remove_paths g paths de ds)) <->
   In e (edges g) /\
   forall p, In p paths ->
     ~ In (src e) (doomed de ds p) /\ ~ In (dst e) (doomed de ds p)).
Proof.
  unfold remove_paths. revert g.
  induction paths as [| p paths IH]; intros g Hwf; simpl.
  - split; [intros H; split; [assumption | intros p []] | tauto].
  - rewrite IH by (now apply remove_nodes_from_wf).
    rewrite remove_nodes_from_edges by assumption. split.
    + intros [(He & Hs & Hd) Hps]. split; [assumption|].
      intros q [<- | Hq]; auto.
    + intros [He H]. destruct (H p (or_introl eq_refl)).
      split; [tauto|]. intros q Hq. apply H. now right.
Qed.

Lemma remove_paths_nil g de ds : remove_paths g [] de ds = g.
Proof. reflexivity. Qed.

End RemoveNodes.

Lemma NoDup_last_not_in_removelast {A : Type} (l : list A) (d : A) :
  NoDup l -> ~ In (last l d) (removelast l).
Proof.
  intros H.
  destruct l as [| a l']; [simpl; tauto|].
  assert (a :: l' <> []) as Hne by discriminate.
  rewrite (app_removelast_last d Hne) in H at 1.
  apply NoDup_remove_2 in H. now rewrite app_nil_r in H.
Qed.

Lemma In_removelast {A : Type} (l : list A) (x : A) : In x (removelast l) -> In x l.
Proof.
  induction l as [| a [| b l] IH]; simpl in *; [tauto | tauto |].
  intros [-> | H]; auto.
Qed.

(** ** Rounding to a double *)

Section Rounding.

Local Open Scope Q_scope.

Lemma pow2_pos (e : Z) : 0 < 2 ^ e.
Proof. apply Qpower_0_lt. reflexivity. Qed.

Lemma pow2_add (x y : Z) : 2 ^ (x + y) == 2 ^ x * 2 ^ y.
Proof. apply Qpower_plus. discriminate. Qed.

Lemma pow2_le (x y : Z) : (x <= y)%Z -> 2 ^ x <= 2 ^ y.
Proof. intros H. apply Qpower_le_compat_l; [assumption | discriminate]. Qed.

Lemma pow2_lt (x y : Z) : (x < y)%Z -> 2 ^ x < 2 ^ y.
Proof. intros H. apply Qpower_lt_compat_l; [assumption | reflexivity]. Qed.

Lemma pow2_Z (z : Z) : (0 <= z)%Z -> inject_Z (2 ^ z) == 2 ^ z.
Proof. intros H. now rewrite Zpower_Qpower. Qed.

Lemma floor_bounds (x : Q) : inject_Z (Qfloor x) <= x /\ x < inject_Z (Qfloor x) + 1.
Proof.
  split; [apply Qfloor_le|].
  pose proof (Qlt_floor x) as H. rewrite inject_Z_plus in H. exact H.
Qed.

Lemma round_half_even_near (x : Q) :
  Qabs (inject_Z (round_half_even x) - x) <= 1 # 2.
Proof.
  destruct (floor_bounds x) as [Hlo Hhi].
  apply Qabs_Qle_condition. unfold round_half_even.
  destruct (Qcompare (x - inject_Z (Qfloor x)) (1 # 2)) eqn:E.
  - apply Qeq_alt in E.
    destruct (Z.even (Qfloor x));
      [| rewrite inject_Z_plus; change (inject_Z 1) with 1]; split; lra.
  - apply Qlt_alt in E. split; lra.
  - apply Qgt_alt in E. rewrite inject_Z_plus. change (inject_Z 1) with 1.
    split; lra.
Qed.

Lemma round_half_even_nearest (x : Q) (k : Z) :
  Qabs (inject_Z (round_half_even x) - x) <= Qabs (inject_Z k - x).
Proof.
  pose proof (round_half_even_near x) as H.
  set (m := round_half_even x) in *.
  destruct (Z.eq_dec k m) as [-> | Hne]; [apply Qle_refl|].
  apply Qabs_Qle_condition in H.
  apply Qle_trans with (1 # 2); [apply Qabs_Qle_condition; exact H|].
  destruct (Z_lt_le_dec k m) as [Hlt | Hge].
  - assert (inject_Z k + 1 <= inject_Z m) as Hk.
    { change 1 with (inject_Z 1). rewrite <- (inject_Z_plus k 1).
      rewrite <- Zle_Qle. lia. }
    rewrite Qabs_Qminus. eapply Qle_trans; [| apply Qle_Qabs]. lra.
  - assert (inject_Z m + 1 <= inject_Z k) as Hk.
    { change 1 with (inject_Z 1). rewrite <- (inject_Z_plus m 1).
      rewrite <- Zle_Qle. lia. }
    eapply Qle_trans; [| apply Qle_Qabs]. lra.
Qed.

Lemma log2_bracket (q : Q) :
  0 < q ->
  let s := (Z.log2 (Qnum q) - Z.log2 (Zpos (Qden q)))%Z in
  2 ^ (s - 1) < q /\ q < 2 ^ (s + 1).
Proof.
  intros Hq. destruct q as [n d]. cbn [Qnum Qden].
  assert (0 < n)%Z as Hn by (unfold Qlt in Hq; simpl in Hq; lia).
  destruct (Z.log2_spec n Hn) as [Ha Ha'].
  destruct (Z.log2_spec (Zpos d) (Pos2Z.is_pos d)) as [Hb Hb'].
  pose proof (Z.log2_nonneg n) as Ha0. pose proof (Z.log2_nonneg (Zpos d)) as Hb0.
  set (a := Z.log2 n) in *. set (b := Z.log2 (Zpos d)) in *.
  rewrite Zle_Qle, pow2_Z in Ha, Hb by assumption.
  rewrite Zlt_Qlt, pow2_Z in Ha', Hb' by lia.
  assert ((n # d) * inject_Z (Zpos d) == inject_Z n) as Hnd.
  { rewrite (Qmake_Qdiv n d). field. discriminate. }
  assert (0 < inject_Z (Zpos d)) as Hd by reflexivity.
  cbv zeta. split.
  - apply (Qmult_lt_r _ _ (2 ^ Z.succ b)); [apply pow2_pos|].
    rewrite <- pow2_add. replace (a - b - 1 + Z.succ b)%Z with a by lia.
    apply Qle_lt_trans with (inject_Z n); [exact Ha|].
    rewrite <- Hnd. apply Qmult_lt_l; assumption.
  - apply (Qmult_lt_r _ _ (2 ^ b)); [apply pow2_pos|].
    rewrite <- pow2_add. replace (a - b + 1 + b)%Z with (Z.succ a) by lia.
    apply Qle_lt_trans with (inject_Z n); [| exact Ha'].
    rewrite <- Hnd. apply Qmult_le_l; assumption.
Qed.

Lemma exponent_bracket (q : Q) :
  0 < q ->
  let e := float_exponent q in
  q / 2 ^ e < 2 ^ 53 /\ ((-1074 < e)%Z -> 2 ^ 52 <= q / 2 ^ e).
Proof.
  intros Hq e.
  destruct (log2_bracket q Hq) as [Hlo Hhi].
  set (s := (Z.log2 (Qnum q) - Z.log2 (Zpos (Qden q)))%Z) in *.
  set (fl := if Qle_bool (2 ^ s) q then s else (s - 1)%Z).
  assert (2 ^ fl <= q /\ q < 2 ^ (fl + 1)) as [Hfl Hfl'].
  { unfold fl. destruct (Qle_bool (2 ^ s) q) eqn:E.
    - apply Qle_bool_iff in E. auto.
    - split; [now apply Qlt_le_weak|].
      replace (s - 1 + 1)%Z with s by lia.
      apply Qnot_le_lt. intros H. apply Qle_bool_iff in H. congruence. }
  assert (e = Z.max (fl - 52) (-1074)) as He by reflexivity.
  assert (q / 2 ^ e * 2 ^ e == q) as Hx.
  { field. apply Qnot_eq_sym, Qlt_not_eq, pow2_pos. }
  split.
  - apply (Qmult_lt_r _ _ (2 ^ e)); [apply pow2_pos|].
    rewrite Hx, <- pow2_add.
    apply Qlt_le_trans with (2 ^ (fl + 1)); [assumption|].
    apply pow2_le. lia.
  - intros Hsub.
    apply (Qmult_le_r _ _ (2 ^ e)); [apply pow2_pos|].
    rewrite Hx, <- pow2_add.
    replace (52 + e)%Z with fl by lia. assumption.
Qed.

Lemma inject_Z_lt_succ (m k : Z) : inject_Z m < inject_Z k + 1 -> (m <= k)%Z.
Proof.
  intros H. change 1 with (inject_Z 1) in H. rewrite <- inject_Z_plus in H.
  rewrite <- Zlt_Qlt in H. lia.
Qed.

Lemma inject_Z_gt_pred (m k : Z) : inject_Z k - 1 < inject_Z m -> (k <= m)%Z.
Proof.
  intros H. assert (inject_Z k < inject_Z m + 1) as H' by lra.
  now apply inject_Z_lt_succ.
Qed.

Lemma Qabs_inject_Z (z : Z) : Qabs (inject_Z z) == inject_Z (Z.abs z).
Proof. unfold inject_Z. symmetry. apply Zabs_Qabs. Qed.

Lemma scaled_abs (a b c : Q) : 0 < c -> Qabs (a * c - b * c) == Qabs (a - b) * c.
Proof.
  intros Hc. setoid_replace (a * c - b * c) with ((a - b) * c) by ring.
  rewrite Qabs_Qmult, (Qabs_pos c) by (now apply Qlt_le_weak). reflexivity.
Qed.

Lemma round_to_float_nearest_sign (q : Q) : 0 < q -> 0 <= round_to_float q.
Proof.
  intros Hq. unfold round_to_float.
  set (e := float_exponent q). set (x := q / 2 ^ e).
  pose proof (pow2_pos e) as He.
  assert (x * 2 ^ e == q) as Hx by (unfold x; field; lra).
  assert (0 < x) as Hx0.
  { apply (Qmult_lt_r _ _ (2 ^ e)); [assumption|]. rewrite Hx. lra. }
  pose proof (round_half_even_near x) as Hnear.
  apply Qabs_Qle_condition in Hnear.
  assert (0 <= round_half_even x)%Z as Hm0.
  { apply (inject_Z_gt_pred _ 0). change (inject_Z 0) with 0. lra. }
  apply Qmult_le_0_compat; [| lra].
  change 0 with (inject_Z 0). now rewrite <- Zle_Qle.
Qed.

Lemma round_to_float_nearest (q : Q) :
  0 < q ->
  round_to_float q < 2 ^ 1024 ->
  0 <= round_to_float q /\ nearest_float64 q (round_to_float q).
Proof.
  intros Hq Hfin. unfold round_to_float in *.
  destruct (exponent_bracket q Hq) as [Hup Hlow].
  set (e := float_exponent q) in *. set (x := q / 2 ^ e) in *.
  pose proof (pow2_pos e) as He.
  assert (x * 2 ^ e == q) as Hx by (unfold x; field; lra).
  assert (0 < x) as Hx0.
  { apply (Qmult_lt_r _ _ (2 ^ e)); [assumption|]. rewrite Hx. lra. }
  pose proof (round_half_even_near x) as Hnear.
  apply Qabs_Qle_condition in Hnear.
  set (m := round_half_even x) in *.
  assert (-1074 <= e)%Z as Hemin by (unfold e, float_exponent; lia).
  assert (0 <= m)%Z as Hm0.
  { apply (inject_Z_gt_pred m 0). change (inject_Z 0) with 0. lra. }
  assert (m <= 2 ^ 53)%Z as Hm53.
  { apply inject_Z_lt_succ. rewrite pow2_Z by lia. lra. }
  assert ((-1074 < e)%Z -> (2 ^ 52 <= m)%Z) as Hm52.
  { intros H. specialize (Hlow H). apply inject_Z_gt_pred.
    rewrite pow2_Z by lia. lra. }
  assert (0 <= inject_Z m) as HmQ by (change 0 with (inject_Z 0); now rewrite <- Zle_Qle).
  split; [apply Qmult_le_0_compat; lra|].
  split.
  - (* the result is a double *)
    destruct (Z_lt_le_dec m (2 ^ 53)) as [Hlt | Hge].
    + exists m, e. split; [lia|]. split; [| reflexivity]. split; [assumption|].
      destruct (Z_le_gt_dec e 971) as [| Hbig]; [assumption|]. exfalso.
      assert (2 ^ 52 <= inject_Z m) as Hm.
      { rewrite <- pow2_Z by lia. rewrite <- Zle_Qle. apply Hm52. lia. }
      assert (2 ^ 972 <= 2 ^ e) as Hp by (apply pow2_le; lia).
      assert (2 ^ 1024 == 2 ^ 52 * 2 ^ 972) as E1024 by (rewrite <- pow2_add; reflexivity).
      assert (2 ^ 52 * 2 ^ 972 <= inject_Z m * 2 ^ e).
      { apply Qmult_le_compat_nonneg; split; try assumption;
          apply Qlt_le_weak, pow2_pos. }
      lra.
    + assert (m = 2 ^ 53)%Z as -> by lia.
      exists (2 ^ 52)%Z, (e + 1)%Z. split; [lia|].
      assert (inject_Z (2 ^ 53) * 2 ^ e == inject_Z (2 ^ 52) * 2 ^ (e + 1)) as Eq2.
      { rewrite !pow2_Z by lia. rewrite <- !pow2_add.
        replace (52 + (e + 1))%Z with (53 + e)%Z by lia. reflexivity. }
      split; [| exact Eq2]. split; [lia|].
      destruct (Z_le_gt_dec (e + 1) 971) as [| Hbig]; [assumption|]. exfalso.
      assert (2 ^ 971 <= 2 ^ e) as Hp by (apply pow2_le; lia).
      assert (2 ^ 1024 == 2 ^ 53 * 2 ^ 971) as E1024 by (rewrite <- pow2_add; reflexivity).
      rewrite pow2_Z in Hfin by lia.
      assert (2 ^ 53 * 2 ^ 971 <= 2 ^ 53 * 2 ^ e).
      { apply Qmult_le_l; [apply pow2_pos | assumption]. }
      lra.
  - (* no double is nearer *)
    intros d (m' & e' & Hm' & He' & Hd).
    rewrite <- Hx at 1. rewrite scaled_abs by assumption.
    destruct (Z_le_gt_dec e e') as [Hle | Hgt].
    + set (k := (m' * 2 ^ (e' - e))%Z).
      assert (d == inject_Z k * 2 ^ e) as Hk.
      { rewrite Hd. unfold k. rewrite inject_Z_mult, pow2_Z by lia.
        rewrite <- Qmult_assoc, <- pow2_add.
        replace (e' - e + e)%Z with e' by lia. reflexivity. }
      rewrite Hk. rewrite <- Hx at 1. rewrite scaled_abs by assumption.
      apply Qmult_le_compat_r; [| now apply Qlt_le_weak].
      apply round_half_even_nearest.
    + assert (2 ^ 52 <= x) as Hx52 by (apply Hlow; lia).
      assert (d < 2 ^ 52 * 2 ^ e) as Hd'.
      { apply Qle_lt_trans with (Qabs d); [apply Qle_Qabs|].
        rewrite Hd, Qabs_Qmult, (Qabs_pos (2 ^ e')) by (apply Qlt_le_weak, pow2_pos).
        rewrite Qabs_inject_Z.
        apply Qlt_le_trans with (2 ^ 53 * 2 ^ e').
        - apply Qmult_lt_r; [apply pow2_pos|].
          rewrite <- pow2_Z by lia. now rewrite <- Zlt_Qlt.
        - rewrite <- !pow2_add. apply pow2_le. lia. }
      apply Qle_trans with ((x - 2 ^ 52) * 2 ^ e).
      * apply Qmult_le_compat_r; [| now apply Qlt_le_weak].
        eapply Qle_trans; [apply (round_half_even_nearest x (2 ^ 52))|].
        rewrite pow2_Z by lia. rewrite Qabs_neg by lra. lra.
      * rewrite Qabs_Qminus. eapply Qle_trans; [| apply Qle_Qabs].
        rewrite <- Hx at 1. lra.
Qed.

Lemma is_float64_opp (r : Q) : is_float64 r -> is_float64 (- r).
Proof.
  intros (m & e & Hm & He & Hr). exists (- m)%Z, e.
  split; [lia|]. split; [assumption|]. rewrite Hr, inject_Z_opp. ring.
Qed.

Lemma is_float64_zero : is_float64 0.
Proof. exists 0%Z, 0%Z. split; [reflexivity|]. split; [lia | reflexivity]. Qed.

Lemma nearest_float64_opp (q r : Q) : nearest_float64 q r -> nearest_float64 (- q) (- r).
Proof.
  intros [Hr Hn]. split; [now apply is_float64_opp|].
  intros d Hd. apply is_float64_opp in Hd. specialize (Hn _ Hd).
  setoid_replace (- r - - q) with (- (r - q)) by ring.
  setoid_replace (d - - q) with (- (- d - q)) by ring.
  now rewrite !Qabs_opp.
Qed.

Lemma nearest_float_correct (q : Q) :
  Qabs (nearest_float q) < 2 ^ 1024 -> nearest_float64 q (nearest_float q).
Proof.
  unfold nearest_float. destruct (Qcompare q 0) eqn:E; intros Hfin.
  - apply Qeq_alt in E. split; [apply is_float64_zero|].
    intros d _. rewrite E. setoid_replace (0 - 0) with 0 by ring. apply Qabs_nonneg.
  - apply Qlt_alt in E.
    assert (0 < - q) as Hq by lra.
    assert (round_to_float (- q) < 2 ^ 1024) as Hf.
    { rewrite Qabs_opp in Hfin. eapply Qle_lt_trans; [apply Qle_Qabs | exact Hfin]. }
    destruct (round_to_float_nearest (- q) Hq Hf) as [_ Hn].
    apply nearest_float64_opp in Hn.
    destruct Hn as [Hr Hn]. split; [exact Hr|].
    intros d Hd. specialize (Hn d Hd).
    setoid_replace (- round_to_float (- q) - q) with (- round_to_float (- q) - - - q) by ring.
    setoid_replace (d - q) with (d - - - q) by ring. exact Hn.
  - apply Qgt_alt in E.
    assert (round_to_float q < 2 ^ 1024) as Hf.
    { eapply Qle_lt_trans; [apply Qle_Qabs | exact Hfin]. }
    now destruct (round_to_float_nearest q E Hf).
Qed.

Lemma round_to_float_overflow (q : Q) :
  0 < q -> 2 ^ 1024 <= round_to_float q -> 2 ^ 1023 <= q.
Proof.
  intros Hq Hbig. unfold round_to_float in *.
  set (e := float_exponent q) in *. set (x := q / 2 ^ e) in *.
  pose proof (pow2_pos e) as He.
  assert (x * 2 ^ e == q) as Hx by (unfold x; field; lra).
  pose proof (round_half_even_near x) as Hnear.
  apply Qabs_Qle_condition in Hnear.
  set (m := round_half_even x) in *.
  pose proof (pow2_pos 1024) as Hp.
  assert (1 <= m)%Z as Hm.
  { destruct (Z_lt_le_dec m 1) as [Hlt | Hge]; [| assumption]. exfalso.
    assert (inject_Z m <= 0) as Hneg
        by (change 0 with (inject_Z 0); rewrite <- Zle_Qle; lia).
    assert (inject_Z m * 2 ^ e <= 0 * 2 ^ e) as Hle
        by (apply Qmult_le_compat_r; [assumption | now apply Qlt_le_weak]).
    lra. }
  assert (1 <= inject_Z m) as HmQ
      by (change 1 with (inject_Z 1); now rewrite <- Zle_Qle).
  assert (2 ^ 1024 == 2 * 2 ^ 1023) as E
      by (change 2 with (2 ^ 1) at 2; rewrite <- pow2_add; reflexivity).
  assert (0 <= (x - inject_Z m * (1 # 2)) * 2 ^ e) as Hpos
      by (apply Qmult_le_0_compat; lra).
  rewrite <- Hx. lra.
Qed.

Lemma nearest_float_overflow (q : Q) :
  2 ^ 1024 <= Qabs (nearest_float q) -> 2 ^ 1023 <= Qabs q.
Proof.
  unfold nearest_float. destruct (Qcompare q 0) eqn:E; intros Hbig.
  - exfalso. pose proof (pow2_pos 1024) as Hp.
    change (Qabs 0) with 0 in Hbig. lra.
  - apply Qlt_alt in E. assert (0 < - q) as Hq by lra.
    rewrite Qabs_opp in Hbig.
    pose proof (round_to_float_nearest_sign (- q) Hq) as Hsign.
    rewrite Qabs_pos in Hbig by assumption.
    rewrite Qabs_neg by lra. now apply round_to_float_overflow.
  - apply Qgt_alt in E.
    pose proof (round_to_float_nearest_sign q E) as Hsign.
    rewrite Qabs_pos in Hbig by assumption.
    rewrite Qabs_pos by lra. now apply round_to_float_overflow.
Qed.

Lemma nearest_float64_same (q r r' : Q) :
  r == r' -> nearest_float64 q r -> nearest_float64 q r'.
Proof.
  intros E [(m & e & Hm & He & Hr) Hn]. split.
  - exists m, e. split; [assumption|]. split; [assumption|]. now rewrite <- E.
  - intros d Hd. rewrite <- E. now apply Hn.
Qed.

Lemma to_float_spec (q : Q) :
  match to_float q with
  | Ok r => nearest_float64 q r
  | Err e => e = OverflowError /\ 2 ^ 1023 <= Qabs q
  end.
Proof.
  unfold to_float.
  destruct (Qle_bool (2 ^ 1024) (Qabs (nearest_float q))) eqn:E.
  - apply Qle_bool_iff in E. split; [reflexivity|]. now apply nearest_float_overflow.
  - apply (nearest_float64_same q (nearest_float q)).
    + symmetry. apply Qred_correct.
    + apply nearest_float_correct. apply Qnot_le_lt. intros H.
      apply Qle_bool_iff in H. congruence.
Qed.

End Rounding.

(** ** The average weight of a path *)

Section AverageWeight.

Implicit Types (g : DiGraph) (path : list string) (e : edge).

Lemma subgraph_edges g path e :
  In e (edges (subgraph g path)) <->
  In e (edges g) /\ In (src e) path /\ In (dst e) path.
Proof.
  unfold subgraph. simpl.
  rewrite filter_In, andb_true_iff, !mem_In. tauto.
Qed.

Lemma subgraph_nodes g path n :
  In n (nodes (subgraph g path)) <-> In n (nodes g) /\ In n path.
Proof. unfold subgraph. simpl. rewrite filter_In, mem_In. tauto. Qed.

Lemma wf_edges_NoDup g : wf g -> NoDup (edges g).
Proof. intros H. apply (NoDup_map_inv key), (wf_keys g H). Qed.

Lemma key_unique (es : list edge) e e' :
  NoDup (map key es) -> In e es -> In e' es -> key e = key e' -> e = e'.
Proof.
  induction es as [| x es IH]; simpl; [tauto|].
  intros H [-> | He] [-> | He'] Hk; inversion H as [| ? ? Hnot Hnd]; subst.
  - reflexivity.
  - exfalso. apply Hnot. rewrite Hk. now apply in_map.
  - exfalso. apply Hnot. rewrite <- Hk. now apply in_map.
  - auto.
Qed.

Lemma steps_cons a b (r : list string) :
  steps (a :: b :: r) = (a, b) :: steps (b :: r).
Proof. reflexivity. Qed.

Lemma steps_In path a b : In (a, b) (steps path) -> In a path /\ In b path.
Proof.
  induction path as [| x path IH]; [simpl; tauto|].
  destruct path as [| y r]; [simpl; tauto|].
  rewrite steps_cons. intros [E | H].
  - injection E as -> ->. simpl. auto.
  - destruct (IH H) as [Ha Hb]. split; now right.
Qed.

Lemma steps_NoDup path : NoDup path -> NoDup (steps path).
Proof.
  induction path as [| x path IH]; [constructor|].
  destruct path as [| y r]; [constructor|].
  rewrite steps_cons. intros H. inversion H as [| ? ? Hnot Hnd]; subst.
  constructor; [| auto].
  intros Hin. apply steps_In in Hin as [Hx _]. contradiction.
Qed.

Lemma sumZ_perm (l1 l2 : list Z) : Permutation l1 l2 -> sumZ l1 = sumZ l2.
Proof.
  induction 1; simpl; try lia.
Qed.

Lemma mean_perm (l1 l2 : list Z) : Permutation l1 l2 -> mean l1 = mean l2.
Proof.
  intros H. pose proof (sumZ_perm _ _ H) as Hs.
  pose proof (Permutation_length H) as Hl.
  destruct l1, l2; try discriminate; [reflexivity|].
  unfold mean. now rewrite Hs, Hl.
Qed.

Lemma mean_average (ws : list Z) : average_of ws (mean ws).
Proof.
  destruct ws as [| w ws]; [left; split; reflexivity|].
  unfold mean, average_of.
  set (l := w :: ws).
  change (fold_right Z.add 0%Z l) with (sumZ l).
  assert (Z.of_nat (List.length l) <> 0%Z) as Hn by (simpl; lia).
  destruct (Z.eqb_spec (sumZ l mod Z.of_nat (List.length l)) 0) as [E | E].
  - split; [discriminate|]. split; [reflexivity|].
    intros Hnot. exfalso. apply Hnot. now apply Z.mod_divide.
  - assert (~ (Z.of_nat (List.length l) | sumZ l)%Z) as Hnot.
    { intros H. apply E. now apply Z.mod_divide. }
    pose proof (to_float_spec (sumZ l # Pos.of_nat (List.length l))) as Hf.
    destruct (to_float (sumZ l # Pos.of_nat (List.length l))) as [r | e].
    + split; [discriminate|]. split; [intros H; contradiction | auto].
    + right. destruct Hf as [-> Hbig]. split; [discriminate|]. auto.
Qed.

(** When the edges between the nodes of a simple path are those that
    it traverses, the subgraph has the traversed edges, each once. *)
Lemma induced_is_traversed g path (traversed : list edge) :
  wf g -> NoDup path ->
  map key traversed = steps path ->
  (forall e, In e traversed -> In e (edges g)) ->
  (forall e, In e (edges g) -> In (src e) path -> In (dst e) path ->
             In (key e) (steps path)) ->
  Permutation (edges (subgraph g path)) traversed.
Proof.
  intros Hwf Hnd Hkeys Hin Hno.
  apply NoDup_Permutation.
  - apply NoDup_filter, wf_edges_NoDup, Hwf.
  - apply (NoDup_map_inv key). rewrite Hkeys. now apply steps_NoDup.
  - intros e. rewrite subgraph_edges. split.
    + intros (He & Hs & Hd).
      pose proof (Hno e He Hs Hd) as Hk. rewrite <- Hkeys in Hk.
      apply in_map_iff in Hk as [e' [Hk' He']].
      assert (e' = e) as <-; [| assumption].
      apply (key_unique (edges g)); auto. apply (wf_keys g Hwf).
    + intros He. split; [auto|].
      assert (In (key e) (steps path)) as Hk
          by (rewrite <- Hkeys; now apply in_map).
      destruct e as [[a b] w]. apply steps_In in Hk. exact Hk.
Qed.

End AverageWeight.

(** ** Selection of the best path *)

Section Selection.

Lemma argmax_from_spec (l : list Q) : forall best best_i i,
  let r := argmax_from best best_i i l in
  (r = best_i /\ forall x, In x l -> (x <= best)%Q) \/
  (exists p, r = i + p /\ p < List.length l /\ (best < nth p l 0)%Q /\
             (forall q, q < p -> (nth q l 0 < nth p l 0)%Q) /\
             (forall q, q < List.length l -> (nth q l 0 <= nth p l 0)%Q)).
Proof.
  induction l as [| x l IH]; intros best best_i i; simpl.
  - left. split; [reflexivity | tauto].
  - destruct (Qle_bool x best) eqn:E.
    + apply Qle_bool_iff in E.
      destruct (IH best best_i (S i)) as [[Hr Hall] | (p & Hr & Hp & Hb & Hlt & Hle)].
      * left. split; [assumption|]. intros y [<- | Hy]; auto.
      * right. exists (S p). repeat split.
        -- rewrite Hr. lia.
        -- lia.
        -- assumption.
        -- intros [| q] Hq; simpl.
           ++ eapply Qle_lt_trans; eassumption.
           ++ apply Hlt. lia.
        -- intros [| q] Hq; simpl.
           ++ apply Qlt_le_weak. eapply Qle_lt_trans; eassumption.
           ++ apply Hle. lia.
    + assert (best < x)%Q as Hbx.
      { apply Qnot_le_lt. intros H. apply Qle_bool_iff in H. congruence. }
      destruct (IH x i (S i)) as [[Hr Hall] | (p & Hr & Hp & Hb & Hlt & Hle)].
      * right. exists 0. repeat split.
        -- rewrite Hr. lia.
        -- lia.
        -- assumption.
        -- intros q Hq. lia.
        -- intros [| q] Hq; simpl; [apply Qle_refl|].
           apply Hall, nth_In. lia.
      * right. exists (S p). repeat split.
        -- rewrite Hr. lia.
        -- lia.
        -- simpl. eapply Qlt_trans; eassumption.
        -- intros [| q] Hq; simpl; [assumption|]. apply Hlt. lia.
        -- intros [| q] Hq; simpl; [now apply Qlt_le_weak|]. apply Hle. lia.
Qed.

Lemma argmax_first_max (l : list Q) :
  l <> [] -> exists i, argmax l = Ok i /\ first_max l i.
Proof.
  destruct l as [| x l]; [congruence|]. intros _. simpl.
  exists (argmax_from x 0 1 l). split; [reflexivity|].
  destruct (argmax_from_spec l x 0 1) as [[Hr Hall] | (p & Hr & Hp & Hb & Hlt & Hle)];
    simpl in Hr; rewrite Hr; split; simpl.
  - lia.
  - intros [| j] Hj; split; try lia; [apply Qle_refl|].
    apply Hall, nth_In. lia.
  - lia.
  - intros [| j] Hj; split.
    + now apply Qlt_le_weak.
    + intros _. assumption.
    + apply Hle. lia.
    + intros Hjp. apply Hlt. lia.
Qed.

Lemma randint_from_zero st n :
  randint st 0 n = Ok (st mod (n + 1), st / (n + 1)).
Proof.
  unfold randint. simpl. now rewrite Nat.sub_0_r.
Qed.

Lemma list_pop_valid {A : Type} (l : list A) (i : nat) :
  i < List.length l ->
  list_pop (G := DiGraph) l (IntArg (Z.of_nat i)) = Ok (remove_nth i l).
Proof.
  intros H. unfold list_pop.
  destruct (Z.ltb_spec (Z.of_nat i) 0); [lia|].
  destruct (Z.ltb_spec (Z.of_nat i) 0); [lia|].
  destruct (Z.leb_spec (Z.of_nat (List.length l)) (Z.of_nat i)); [lia|].
  simpl. now rewrite Nat2Z.id.
Qed.

Lemma list_pop_past_end {A : Type} (l : list A) (i : nat) :
  List.length l <= i ->
  list_pop (G := DiGraph) l (IntArg (Z.of_nat i)) = Err IndexError.
Proof.
  intros H. unfold list_pop.
  destruct (Z.ltb_spec (Z.of_nat i) 0); [lia|].
  destruct (Z.ltb_spec (Z.of_nat i) 0); [lia|].
  destruct (Z.leb_spec (Z.of_nat (List.length l)) (Z.of_nat i)); [| lia].
  reflexivity.
Qed.

Lemma list_pop_object {A : Type} (l : list A) (g : DiGraph) :
  list_pop l (ObjArg g) = Err TypeError.
Proof. reflexivity. Qed.

End Selection.

(** ** Tips and bubbles *)

Lemma mapM_In {A B : Type} (f : A -> result B) (l : list A) (bs : list B) (a : A) :
  mapM f l = Ok bs -> In a l -> exists b, f a = Ok b /\ In b bs.
Proof.
  revert bs. induction l as [| x l IH]; intros bs H Hin; [contradiction|].
  simpl in H. destruct (f x) as [b |] eqn:Ex; [| discriminate].
  destruct (mapM f l) as [bs' |] eqn:El; [| discriminate].
  simpl in H. injection H as <-.
  destruct Hin as [<- | Hin].
  - exists b. split; [assumption | now left].
  - destruct (IH bs' eq_refl Hin) as [b' [Hb' Hin']].
    exists b'. split; [assumption | now right].
Qed.

Lemma dict_get_In (d : dict) k v : dict_get d k = Some v -> In (k, v) d.
Proof.
  induction d as [| [k' v'] d IH]; simpl; [discriminate|].
  destruct (String.eqb_spec k' k) as [-> | Hk].
  - intros [= ->]. now left.
  - intros H. right. auto.
Qed.

(** The body of the loop of [solve_entry_tips] never returns: the index
    given to [pop] is the graph that the selector returned. *)
Lemma resolve_tips_raises st g tips n :
  exists e, resolve_tips st g tips n = Err e.
Proof.
  unfold resolve_tips.
  destruct (mapM _ tips) as [paths | e]; simpl; [| eauto].
  destruct (mapM _ paths) as [scored | e]; simpl; [| eauto].
  destruct (select_best_path _ _ _ _ _ _ _) as [r | e]; simpl; eauto.
Qed.

Lemma entry_tips_loop_unchanged size todo st g starting r :
  entry_tips_loop size todo st g starting = Ok r ->
  r = (g, st) /\
  forall n, In n todo -> List.length (tip_predecessors g starting n) <= 1.
Proof.
  revert st g. induction todo as [| n todo IH]; intros st g; simpl.
  - destruct (negb _); [discriminate|]. intros [= <-]. split; [reflexivity | tauto].
  - destruct (negb _); [discriminate|].
    destruct (Nat.ltb_spec 1 (List.length (tip_predecessors g starting n))) as [Hlt | Hle].
    + destruct (resolve_tips_raises st g (tip_predecessors g starting n) n) as [e ->].
      discriminate.
    + simpl. intros H. apply IH in H as [-> Hall]. split; [reflexivity|].
      intros m [<- | Hm]; auto.
Qed.

(** [solve_entry_tips] returns only when no node has two tip
    predecessors, and then the graph is the one it was given. *)
Lemma solve_entry_tips_unchanged st g starting r :
  solve_entry_tips st g starting = Ok r ->
  r = (g, st) /\
  forall n, In n (nodes g) -> List.length (tip_predecessors g starting n) <= 1.
Proof. apply entry_tips_loop_unchanged. Qed.

Lemma simplify_bubbles_step depth st g :
  simplify_bubbles (S depth) st g =
    (s <- scan_nodes g (nodes g) (mkScan false None None) ;;
     if bubble s then
       match ancestor_node s, node s with
       | Some a, Some n =>
           r <- solve_bubble st g a n ;;
           simplify_bubbles depth (snd r) (fst r)
       | _, _ => Err NodeNotFound
       end
     else Ok (g, st)).
Proof. reflexivity. Qed.

(** When [simplify_bubbles] returns, a scan of the graph it returns
    finds no bubble. *)
Lemma simplify_bubbles_returns_clean depth : forall st g g' st',
  simplify_bubbles depth st g = Ok (g', st') ->
  exists s, scan_nodes g' (nodes g') (mkScan false None None) = Ok s /\ bubble s = false.
Proof.
  induction depth as [| depth IH]; intros st g g' st'; [discriminate|].
  rewrite simplify_bubbles_step.
  destruct (scan_nodes g (nodes g) _) as [s | e] eqn:Es; [| discriminate]. simpl.
  destruct (bubble s) eqn:Eb.
  - destruct (ancestor_node s) as [a |]; [| discriminate].
    destruct (node s) as [n |]; [| discriminate].
    destruct (solve_bubble st g a n) as [r | e]; [| discriminate]. simpl.
    apply IH.
  - intros [= <- <-]. now exists s.
Qed.

Lemma simplify_bubbles_recurse depth st g a n g' st' :
  scan_nodes g (nodes g) (mkScan false None None) = Ok (mkScan true (Some a) (Some n)) ->
  solve_bubble st g a n = Ok (g', st') ->
  simplify_bubbles (S depth) st g = simplify_bubbles depth st' g'.
Proof.
  intros Hs Hr. rewrite simplify_bubbles_step, Hs. unfold bind at 1.
  cbv beta iota. unfold bubble, ancestor_node, node. now rewrite Hr.
Qed.

Lemma simplify_bubbles_stop depth st g s :
  scan_nodes g (nodes g) (mkScan false None None) = Ok s ->
  bubble s = false ->
  simplify_bubbles (S depth) st g = Ok (g, st).
Proof.
  intros Hs Hb. rewrite simplify_bubbles_step, Hs. unfold bind. now rewrite Hb.
Qed.

(** On the triangle the resolution keeps the graph as it is. *)
Lemma triangle_scan :
  scan_nodes triangle (nodes triangle) (mkScan false None None)
  = Ok (mkScan true (Some "A") (Some "C")).
Proof. vm_compute. reflexivity. Qed.

Lemma triangle_resolution st :
  solve_bubble st triangle "A" "C" = Ok (triangle, st).
Proof. vm_compute. reflexivity. Qed.

Lemma triangle_never_settles depth : forall st,
  simplify_bubbles depth st triangle = Err RecursionError.
Proof.
  induction depth as [| depth IH]; intros st; [reflexivity|].
  rewrite (simplify_bubbles_recurse depth st triangle "A" "C" triangle st
             triangle_scan (triangle_resolution st)).
  apply IH.
Qed.

Lemma tail_scan :
  scan_nodes bubble_with_tail (nodes bubble_with_tail) (mkScan false None None)
  = Ok (mkScan true (Some "A") (Some "E")).
Proof. vm_compute. reflexivity. Qed.

Lemma tail_resolution st :
  solve_bubble st bubble_with_tail "A" "E"
  = Ok (mkDiGraph ["A"; "B"; "E"] [("A", "B", 10%Z)], st).
Proof. vm_compute. reflexivity. Qed.

Lemma tail_simplified depth st :
  simplify_bubbles (S (S depth)) st bubble_with_tail
  = Ok (mkDiGraph ["A"; "B"; "E"] [("A", "B", 10%Z)], st).
Proof.
  rewrite (simplify_bubbles_recurse _ st bubble_with_tail "A" "E" _ st
             tail_scan (tail_resolution st)).
  apply (simplify_bubbles_stop _ _ _ (mkScan false None (Some "E"))); reflexivity.
Qed.

(** ** What [cut_kmer] yields and what [build_kmer_dict] counts *)

Lemma cut_kmer_yields (read : string) (k : nat) :
  1 <= k ->
  exists kmers,
    cut_kmer read k = Ok kmers /\
    List.length kmers = k + String.length read mod k + 1 /\
    forall i, i <= k + String.length read mod k ->
      nth_error kmers i
      = Some (str_slice read (Some (Z.of_nat i)) (Some (Z.of_nat (i + k)))).
Proof.
  intros Hk.
  exists (map (fun i => str_slice read (Some (Z.of_nat i)) (Some (Z.of_nat (i + k))))
              (seq 0 (k + String.length read mod k + 1))).
  split; [now apply cut_kmer_ok|].
  split; [now rewrite length_map, length_seq|].
  intros i Hi. rewrite nth_error_map, nth_error_seq.
  destruct (Nat.ltb_spec i (k + String.length read mod k + 1));
    [reflexivity | exfalso; lia].
Qed.

Lemma build_kmer_dict_counts (fastq_file reads : list string) (k : nat) :
  1 <= k ->
  read_fastq fastq_file = Ok reads ->
  exists all_kmers d,
    mapM (fun r => cut_kmer r k) reads = Ok all_kmers /\
    build_kmer_dict fastq_file k = Ok d /\
    counts d (List.concat all_kmers) /\
    NoDup (dict_keys d).
Proof.
  intros Hk Hreads.
  destruct (count_reads_counts k reads Hk [] []) as (all_kmers & d & Hm & Hc & Hcnt & Hnd).
  - intros s. reflexivity.
  - constructor.
  - exists all_kmers, d. unfold build_kmer_dict. rewrite Hreads. simpl. auto.
Qed.

(** * The statements of the specification *)

(** C6.  For a read of length [L] and a k-mer size [k >= 1], [cut_kmer]
    yields exactly [over + 1] substrings, where [over = k + L mod k]:
    the [i]-th is [read[i : i+k]] for [i] from [0] to [over]; a slice
    that runs past the end of the read is kept, shorter than [k] (its
    length is [min k (L - i)]).  [build_kmer_dict] counts every
    substring that was yielded, whatever its length: a string is a key
    exactly when it was yielded, and its value is the number of times. *)
Theorem C6_cut_kmer_emits (read : string) (k : nat) :
  1 <= k ->
  let over := k + String.length read mod k in
  exists kmers,
    cut_kmer read k = Ok kmers /\
    List.length kmers = over + 1 /\
    (forall i, i <= over ->
       nth_error kmers i
         = Some (str_slice read (Some (Z.of_nat i)) (Some (Z.of_nat (i + k)))) /\
       String.length (str_slice read (Some (Z.of_nat i)) (Some (Z.of_nat (i + k))))
         = Nat.min k (String.length read - i)) /\
    (forall fastq_file reads,
       read_fastq fastq_file = Ok reads ->
       exists all_kmers d,
         mapM (fun r => cut_kmer r k) reads = Ok all_kmers /\
         build_kmer_dict fastq_file k = Ok d /\
         counts d (List.concat all_kmers) /\
         NoDup (dict_keys d)).
Proof.
  intros Hk over.
  destruct (cut_kmer_yields read k Hk) as (kmers & Hcut & Hlen & Hnth).
  exists kmers. split; [exact Hcut|]. split; [exact Hlen|]. split.
  - intros i Hi. split; [now apply Hnth | apply str_slice_length].
  - intros fastq_file reads Hreads. now apply build_kmer_dict_counts.
Qed.

Lemma C6_cut_kmer_emits_witness :
  exists kmers, cut_kmer "AATCG" 3 = Ok kmers /\ List.length kmers = 6.
Proof.
  destruct (C6_cut_kmer_emits "AATCG" 3) as (kmers & Hcut & Hlen & _).
  - lia.
  - exists kmers. split; [exact Hcut | exact Hlen].
Defined.

(** C10.  For a k-mer size [k >= 1] and a read of length [L < 2k],
    [cut_kmer] yields the empty string (at an index [i >= L]);
    [build_kmer_dict] then has the empty string as a key, counted like
    any other substring, and [build_graph] makes of that entry an edge
    from the node of the empty string to itself. *)
Theorem C10_empty_kmer_self_loop (read : string) (k : nat) :
  1 <= k ->
  String.length read < 2 * k ->
  (exists kmers i,
     cut_kmer read k = Ok kmers /\
     String.length read <= i /\
     nth_error kmers i = Some "") /\
  (forall fastq_file reads,
     read_fastq fastq_file = Ok reads ->
     In read reads ->
     exists d c,
       build_kmer_dict fastq_file k = Ok d /\
       dict_get d "" = Some c /\ (1 <= c)%Z /\
       In "" (nodes (build_graph d)) /\
       exists w, In ("", "", w) (edges (build_graph d))).
Proof.
  intros Hk HL.
  destruct (cut_kmer_yields read k Hk) as (kmers & Hcut & Hlen & Hnth).
  assert (String.length read <= k + String.length read mod k) as Hover.
  { pose proof (Nat.div_mod_eq (String.length read) k).
    assert (k <> 0) as Hk0 by lia.
    pose proof (Nat.mod_upper_bound (String.length read) k Hk0).
    destruct (String.length read / k) as [| [| q]]; nia. }
  assert (nth_error kmers (String.length read) = Some "") as Hempty.
  { rewrite (Hnth _ Hover). f_equal. now apply str_slice_past_end. }
  split.
  - exists kmers, (String.length read). auto.
  - intros fastq_file reads Hreads Hin.
    destruct (build_kmer_dict_counts fastq_file reads k Hk Hreads)
      as (all_kmers & d & Hm & Hb & Hcnt & _).
    destruct (mapM_In _ _ _ _ Hm Hin) as (kmers' & Hcut' & Hin').
    assert (kmers' = kmers) as -> by congruence.
    assert (In "" (List.concat all_kmers)) as Hc.
    { apply in_concat. exists kmers. split; [assumption|].
      eapply nth_error_In, Hempty. }
    apply (count_occ_In string_dec) in Hc.
    specialize (Hcnt ""). 
    destruct (Nat.eqb_spec (count_occ string_dec (List.concat all_kmers) "") 0); [lia|].
    exists d, (Z.of_nat (count_occ string_dec (List.concat all_kmers) "")).
    split; [assumption|]. split; [assumption|]. split; [lia|].
    apply dict_get_In in Hcnt. split.
    + apply build_nodes. right. eexists; eexists. split; [exact Hcnt | now left].
    + apply (build_entry_edge d Nx.empty) in Hcnt. exact Hcnt.
Qed.

Lemma C10_empty_kmer_self_loop_witness :
  exists kmers i, cut_kmer "AATCG" 3 = Ok kmers /\ 5 <= i /\ nth_error kmers i = Some "".
Proof.
  destruct (C10_empty_kmer_self_loop "AATCG" 3) as [H _].
  - lia.
  - simpl. lia.
  - exact H.
Defined.

(** C7, as the code has it.  In the graph that [build_graph] makes
    from a dictionary (distinct keys), every entry makes one edge, from
    its prefix [kmer[:-1]] to its suffix [kmer[1:]], so that there are
    at most as many edges as entries and every edge comes from an entry
    with the weight of that entry; for an entry whose k-mer has two
    characters or more, the weight of its edge is its count, and no
    other weight; the nodes are the prefixes and suffixes of the
    entries. *)
Theorem C7_build_graph_edges (d : dict) :
  NoDup (dict_keys d) ->
  let g := build_graph d in
  wf g /\
  List.length (edges g) <= List.length d /\
  (forall e, In e (edges g) ->
     exists s w, In (s, w) d /\ e = (kmer_prefix s, kmer_suffix s, w)) /\
  (forall s w, In (s, w) d ->
     exists w', In (kmer_prefix s, kmer_suffix s, w') (edges g)) /\
  (forall s w, In (s, w) d -> 2 <= String.length s ->
     In (kmer_prefix s, kmer_suffix s, w) (edges g) /\
     forall w', In (kmer_prefix s, kmer_suffix s, w') (edges g) -> w' = w) /\
  (forall n, In n (nodes g) <->
     exists s w, In (s, w) d /\ (n = kmer_prefix s \/ n = kmer_suffix s)).
Proof.
  intros Hnd g.
  assert (wf g) as Hwf by (apply build_wf, empty_wf).
  split; [exact Hwf|].
  split; [apply (build_edges_length d Nx.empty)|].
  split.
  { intros e He. apply build_edges_origin in He as [[] | H]. exact H. }
  split.
  { intros s w Hin. now apply (build_entry_edge d Nx.empty s w). }
  split.
  { intros s w Hin Hlen.
    pose proof (build_entry_weight d s w Hnd Hin Hlen) as He.
    split; [exact He|].
    intros w' He'.
    pose proof (key_unique (edges g) _ _ (wf_keys g Hwf) He' He eq_refl) as E.
    now injection E. }
  intros n. unfold g, build_graph. rewrite build_nodes. simpl. tauto.
Qed.

Lemma C7_build_graph_edges_witness :
  In ("AT", "TC", 2%Z) (edges (build_graph [("AAT", 1%Z); ("ATC", 2%Z); ("G", 1%Z)])).
Proof.
  destruct (C7_build_graph_edges [("AAT", 1%Z); ("ATC", 2%Z); ("G", 1%Z)])
    as (_ & _ & _ & _ & H & _).
  - unfold dict_keys. simpl.
    repeat constructor; simpl; intuition discriminate.
  - destruct (H "ATC" 2%Z) as [He _].
    + simpl. tauto.
    + simpl. lia.
    + exact He.
Defined.

(** C7, counterexample.  The two entries ["A"] (count 1) and ["C"]
    (count 2) have the same prefix and suffix, the empty string: the
    only edge of the graph has the weight 2, which is not the count of
    ["A"]. *)
Lemma C7_weight_overwritten :
  NoDup (dict_keys [("A", 1%Z); ("C", 2%Z)]) /\
  In ("A", 1%Z) [("A", 1%Z); ("C", 2%Z)] /\
  (kmer_prefix "A", kmer_suffix "A") = ("", "") /\
  edges (build_graph [("A", 1%Z); ("C", 2%Z)]) = [("", "", 2%Z)].
Proof.
  split.
  - unfold dict_keys. simpl. repeat constructor; simpl; intuition discriminate.
  - split; [now left|]. split; reflexivity.
Qed.

Lemma doomed_deleted de ds path : doomed de ds path = deleted_nodes de ds path.
Proof.
  unfold doomed, deleted_nodes. destruct de, ds; simpl.
  - reflexivity.
  - apply slice_drop_last.
  - apply slice_tail.
  - apply slice_interior.
Qed.

(** C8, as the code has it.  For every losing path [remove_paths]
    deletes: all the nodes of the path when both flags are set; all but
    the last node when only the entry flag is set; all but the first
    node when only the sink flag is set; and otherwise the nodes
    strictly inside the path.  A node stays exactly when no losing path
    deletes it, and an edge stays exactly when both its ends stay.
    With both flags unset a simple losing path does not delete its own
    two ends: an end stays in the graph unless it is strictly inside
    another losing path. *)
Theorem C8_remove_paths_policy (g : DiGraph) (paths : list (list string))
    (de ds : bool) :
  wf g ->
  let g' := remove_paths g paths de ds in
  (forall n, In n (nodes g') <->
     In n (nodes g) /\ forall p, In p paths -> ~ In n (deleted_nodes de ds p)) /\
  (forall e, In e (edges g') <->
     In e (edges g) /\ In (src e) (nodes g') /\ In (dst e) (nodes g')) /\
  (de = false -> ds = false ->
   forall p x, In p paths -> NoDup p -> 2 <= List.length p ->
     x = hd "" p \/ x = last p "" ->
     (In x (nodes g') <->
      In x (nodes g) /\
      forall q, In q paths -> q <> p -> ~ In x (removelast (tl q)))).
Proof.
  intros Hwf g'.
  assert (forall n, In n (nodes g') <->
     In n (nodes g) /\ forall p, In p paths -> ~ In n (deleted_nodes de ds p)) as Hnodes.
  { intros n. unfold g'. rewrite remove_paths_nodes.
    split; intros [Hn Hp]; (split; [assumption|]); intros p Hin.
    - rewrite <- doomed_deleted. auto.
    - rewrite doomed_deleted. auto. }
  split; [exact Hnodes|]. split.
  - intros e. unfold g' at 1. rewrite remove_paths_edges by assumption.
    rewrite !Hnodes. split.
    + intros [He Hp]. destruct (wf_ends g Hwf e He) as [Hs Hd].
      repeat split; try assumption; intros p Hin; rewrite <- doomed_deleted;
        apply (Hp p Hin).
    + intros (He & [_ Hs] & [_ Hd]). split; [assumption|].
      intros p Hin. rewrite !doomed_deleted. auto.
  - intros -> -> p x Hp Hnd Hlen Hx.
    assert (~ In x (removelast (tl p))) as Hown.
    { destruct p as [| a [| b r]]; simpl in Hlen; try lia.
      change (tl (a :: b :: r)) with (b :: r).
      destruct Hx as [-> | ->].
      - change (hd "" (a :: b :: r)) with a.
        intros H. apply In_removelast in H. inversion Hnd; subst. contradiction.
      - change (last (a :: b :: r) "") with (last (b :: r) "").
        apply NoDup_last_not_in_removelast. now inversion Hnd. }
    rewrite Hnodes. unfold deleted_nodes. split.
    + intros [Hg Hall]. split; [assumption|]. intros q Hq _. now apply Hall.
    + intros [Hg Hall]. split; [assumption|]. intros q Hq.
      destruct (list_eq_dec string_dec q p) as [-> | Hne]; [assumption|].
      now apply Hall.
Qed.

Lemma C8_remove_paths_policy_witness :
  In "B" (nodes (remove_paths bubble_with_tail [["A"; "C"; "D"]] false false)).
Proof.
  destruct (C8_remove_paths_policy bubble_with_tail [["A"; "C"; "D"]] false false)
    as (H & _ & _).
  - apply build_wf, empty_wf.
  - apply H. split.
    + vm_compute. tauto.
    + intros p [<- | []]. vm_compute. intuition discriminate.
Defined.

(** C8, counterexample.  With only the entry flag set, the losing path
    [A; C; D] loses its inner node [C] too, not only its first node.
    With both flags unset and the two losing paths [A; C; D] and
    [B; D; E], the end [D] of the first is strictly inside the second
    and is deleted. *)
Lemma C8_inner_node_deleted :
  (In "C" (nodes bubble_with_tail) /\
   hd "" ["A"; "C"; "D"] <> "C" /\
   ~ In "C" (nodes (remove_paths bubble_with_tail [["A"; "C"; "D"]] true false))) /\
  (In "D" (nodes bubble_with_tail) /\
   last ["A"; "C"; "D"] "" = "D" /\
   ~ In "D" (nodes (remove_paths bubble_with_tail
                      [["A"; "C"; "D"]; ["B"; "D"; "E"]] false false))).
Proof.
  split; (split; [vm_compute; tauto|]); (split; [try discriminate; try reflexivity|]);
    vm_compute; intuition discriminate.
Qed.

(** C5.  [path_average_weight] is the arithmetic mean of the weights of
    the edges of the graph that join two nodes of the path, each edge
    once, whether the path traverses it or not.  The mean is the one
    of Python: the exact quotient when it is whole, otherwise a double
    nearest to it; no edge gives [StatisticsError].  On a simple path
    whose nodes are joined by the traversed edges only, it is the mean
    of the weights of the traversed edges. *)
Theorem C5_path_average_weight (g : DiGraph) (path : list string) :
  wf g ->
  (exists induced : list (string * string * Z),
     NoDup induced /\
     (forall e, In e induced <->
        In e (edges g) /\ In (fst (fst e)) path /\ In (snd (fst e)) path) /\
     average_of (map snd induced) (path_average_weight g path)) /\
  (forall traversed : list (string * string * Z),
     NoDup path ->
     map fst traversed = steps path ->
     (forall e, In e traversed -> In e (edges g)) ->
     (forall e, In e (edges g) ->
        In (fst (fst e)) path -> In (snd (fst e)) path ->
        In (fst e) (steps path)) ->
     average_of (map snd traversed) (path_average_weight g path)).
Proof.
  intros Hwf. split.
  - exists (edges (subgraph g path)).
    split; [apply NoDup_filter, wf_edges_NoDup, Hwf|].
    split; [intros e; apply subgraph_edges|].
    apply mean_average.
  - intros traversed Hnd Hkeys Hin Hno.
    assert (path_average_weight g path = mean (map snd traversed)) as ->.
    { unfold path_average_weight. apply mean_perm.
      apply (Permutation_map weight). now apply induced_is_traversed. }
    apply mean_average.
Qed.

Lemma C5_path_average_weight_witness :
  path_average_weight bubble_with_tail ["A"; "B"; "D"] = Ok 10%Q.
Proof.
  destruct (C5_path_average_weight bubble_with_tail ["A"; "B"; "D"]) as [_ H].
  - apply build_wf, empty_wf.
  - specialize (H [("A", "B", 10%Z); ("B", "D", 10%Z)]).
    destruct (path_average_weight bubble_with_tail ["A"; "B"; "D"]) as [r | e].
    + destruct H as (_ & Hwhole & _).
      * repeat constructor; simpl; intuition discriminate.
      * reflexivity.
      * intros e He. vm_compute. simpl in He. tauto.
      * intros e He Hs Hd. vm_compute in He.
        repeat (destruct He as [<- | He];
                [vm_compute in Hs, Hd |- *; intuition discriminate|]).
        contradiction.
      * rewrite Hwhole; [reflexivity|]. exists 10%Z. reflexivity.
    + exfalso. destruct H as [[Hnil _] | (_ & _ & Hbig)].
      * repeat constructor; simpl; intuition discriminate.
      * reflexivity.
      * intros e' He. vm_compute. simpl in He. tauto.
      * intros e' He Hs Hd. vm_compute in He.
        repeat (destruct He as [<- | He];
                [vm_compute in Hs, Hd |- *; intuition discriminate|]).
        contradiction.
      * discriminate.
      * vm_compute in Hbig. now apply Hbig.
Defined.

(** On the triangle the mean of 5, 5 and 1 is not whole: the function
    returns the double nearest to 11/3, which prints as
    3.6666666666666665. *)
Lemma triangle_average_is_rounded :
  path_average_weight triangle ["A"; "B"; "C"]
  = Ok (8256599316845909 # 2251799813685248)%Q.
Proof. vm_compute. reflexivity. Qed.

(** C1, on the code.  Two candidates with the same weight and the
    same length: both standard deviations are zero, [randint] draws
    from [0 .. 2] and in the state 2 it draws 2, the number of
    candidates: the selector raises [IndexError], no winner is removed
    and nothing goes to [remove_paths]. *)
Theorem C1_draw_past_the_end :
  select_index 2 [["A"; "C"]; ["B"; "C"]] [2%Z; 2%Z] [1%Q; 1%Q] = Ok (2, 0) /\
  select_best_path 2 two_tips [["A"; "C"]; ["B"; "C"]] [2%Z; 2%Z] [1%Q; 1%Q]
                   false false
  = Err IndexError.
Proof. split; vm_compute; reflexivity. Qed.

(** C2, on the code.  With a single candidate the selector draws the
    index from [0 .. 1]: on 0 the graph is returned as it is, on 1 the
    call raises [IndexError]. *)
Theorem C2_single_candidate (st : random_state) (g : DiGraph) (p : list string)
    (len : Z) (w : Q) (de ds : bool) :
  select_best_path st g [p] [len] [w] de ds
  = if st mod 2 =? 0 then Ok (g, st / 2) else Err IndexError.
Proof.
  assert (select_index st [p] [len] [w] = Ok (st mod 2, st / 2)) as Hi
      by (unfold select_index; apply randint_from_zero).
  unfold select_best_path. rewrite Hi. unfold bind at 1.
  pose proof (Nat.mod_upper_bound st 2 ltac:(lia)) as Hb.
  destruct (st mod 2) as [| [| m]]; [reflexivity | reflexivity | lia].
Qed.

(** C3, on the code.  On two tips [A -> C] and [B -> C] with the
    starting nodes [A] and [B], [solve_entry_tips] raises [TypeError]
    ([paths.pop] is given the graph that the selector returns), and no
    tip is removed. *)
Theorem C3_entry_tips_raise (st : random_state) :
  nodes two_tips = ["A"; "C"; "B"] /\
  tip_predecessors two_tips ["A"; "B"] "C" = ["A"; "B"] /\
  solve_entry_tips st two_tips ["A"; "B"] = Err TypeError.
Proof. repeat split. Qed.

(** C4, on the code.  On a bubble between [A] and [D] followed by the
    edge [D -> E], the scan ends with the last node [E] of the graph,
    not the node [D] where the two paths meet: the resolution between
    [A] and [E] deletes [C] and [D], and of the two paths from [A] to
    [D] none is left.  On the triangle [A -> B -> C], [A -> C] the
    resolution leaves the graph as it is, both paths from [A] to [C]
    stay, and [simplify_bubbles] ends in [RecursionError] whatever the
    depth allowed. *)
Theorem C4_bubble_resolution (st : random_state) (depth : nat) :
  (all_simple_paths bubble_with_tail "A" "D" = Ok [["A"; "B"; "D"]; ["A"; "C"; "D"]] /\
   simplify_bubbles (S (S depth)) st bubble_with_tail
   = Ok (mkDiGraph ["A"; "B"; "E"] [("A", "B", 10%Z)], st)) /\
  (all_simple_paths triangle "A" "C" = Ok [["A"; "B"; "C"]; ["A"; "C"]] /\
   solve_bubble st triangle "A" "C" = Ok (triangle, st) /\
   simplify_bubbles depth st triangle = Err RecursionError).
Proof.
  split; split.
  - reflexivity.
  - apply tail_simplified.
  - reflexivity.
  - split; [apply triangle_resolution | apply triangle_never_settles].
Qed.

(** C9, on the code.  [solve_out_tips] raises nothing: on every graph
    and every list of ending nodes it returns [None] and leaves the
    graph as it is, where the claim asks for an error that the caller
    can see. *)
Theorem C9_out_tips_do_nothing (g : DiGraph) (ending_nodes : list string) :
  solve_out_tips g ending_nodes = Ok (g, None).
Proof. reflexivity. Qed.

(** * Further properties of the code *)

(** ** Reading the file and counting *)

Lemma four_more_div (m : nat) : (4 + m) / 4 = S (m / 4).
Proof.
  replace (4 + m) with (m + 1 * 4) by lia. rewrite Nat.div_add by lia. lia.
Qed.

Lemma four_more_mod (m : nat) : (4 + m) mod 4 = m mod 4.
Proof.
  replace (4 + m) with (m + 1 * 4) by lia. apply Nat.Div0.mod_add.
Qed.

Lemma read_fastq_closed_form_upto (n : nat) : forall lines,
  List.length lines <= n ->
  read_fastq lines =
    if List.length lines mod 4 =? 0
    then Ok (map (fun i => strip (nth (4 * i + 1) lines ""))
                 (seq 0 (List.length lines / 4)))
    else Err RuntimeError.
Proof.
  induction n as [| n IH]; intros lines Hlen.
  - destruct lines; [reflexivity | simpl in Hlen; lia].
  - destruct lines as [| a [| b [| c [| d rest]]]]; try reflexivity.
    change (read_fastq (a :: b :: c :: d :: rest))
      with (seqs <- read_fastq rest ;; Ok (strip b :: seqs)).
    rewrite IH by (simpl in Hlen; lia).
    change (List.length (a :: b :: c :: d :: rest)) with (4 + List.length rest).
    rewrite four_more_mod, four_more_div.
    destruct (List.length rest mod 4 =? 0); [| reflexivity].
    unfold bind. rewrite <- cons_seq, <- seq_shift, map_cons, map_map.
    f_equal. f_equal. apply map_ext. intros i.
    replace (4 * S i + 1) with (S (S (S (S (4 * i + 1))))) by lia.
    reflexivity.
Qed.

Lemma read_fastq_closed_form lines :
  read_fastq lines =
    if List.length lines mod 4 =? 0
    then Ok (map (fun i => strip (nth (4 * i + 1) lines ""))
                 (seq 0 (List.length lines / 4)))
    else Err RuntimeError.
Proof. now apply (read_fastq_closed_form_upto (List.length lines)). Qed.

Lemma mapM_cut_kmer (k : nat) (reads : list string) :
  1 <= k ->
  mapM (fun r => cut_kmer r k) reads
  = Ok (map (fun read =>
               map (fun i => str_slice read (Some (Z.of_nat i)) (Some (Z.of_nat (i + k))))
                   (seq 0 (k + String.length read mod k + 1)))
            reads).
Proof.
  intros Hk. induction reads as [| r reads IH]; [reflexivity|].
  simpl. rewrite (cut_kmer_ok r k Hk), IH. reflexivity.
Qed.

Lemma Permutation_concat_map {A B : Type} (f : A -> list B) (l1 l2 : list A) :
  Permutation l1 l2 -> Permutation (List.concat (map f l1)) (List.concat (map f l2)).
Proof.
  induction 1 as [| x l1 l2 _ IH | x y l | l1 l2 l3 _ IH1 _ IH2]; simpl.
  - constructor.
  - now apply Permutation_app_head.
  - rewrite !app_assoc. apply Permutation_app_tail, Permutation_app_comm.
  - now transitivity (List.concat (map f l2)).
Qed.

Lemma dict_total_set (d : dict) k v :
  dict_total (dict_set d k v)
  = (dict_total d - match dict_get d k with Some old => old | None => 0 end + v)%Z.
Proof.
  unfold dict_total. induction d as [| [k' v'] d IH]; simpl.
  - lia.
  - destruct (String.eqb k' k); simpl; [lia|]. rewrite IH. lia.
Qed.

Lemma dict_total_count_kmer (d : dict) kmer :
  dict_total (count_kmer d kmer) = (dict_total d + 1)%Z.
Proof.
  unfold count_kmer. destruct (dict_get d kmer) as [n |] eqn:E;
    rewrite dict_total_set, E; lia.
Qed.

Lemma dict_total_fold kmers : forall d,
  dict_total (fold_left count_kmer kmers d)
  = (dict_total d + Z.of_nat (List.length kmers))%Z.
Proof.
  induction kmers as [| kmer kmers IH]; intros d; simpl fold_left.
  - simpl. lia.
  - rewrite IH, dict_total_count_kmer. simpl List.length. lia.
Qed.

Lemma count_reads_total (k : nat) (reads : list string) :
  1 <= k ->
  forall d, exists d',
    count_reads d reads k = Ok d' /\
    dict_total d' = (dict_total d + Z.of_nat (emitted k reads))%Z.
Proof.
  intros Hk. induction reads as [| r reads IH]; intros d.
  - exists d. split; [reflexivity|]. unfold emitted. simpl. lia.
  - simpl count_reads. rewrite (cut_kmer_ok r k Hk). unfold bind.
    destruct (IH (fold_left count_kmer
                    (map (fun i => str_slice r (Some (Z.of_nat i))
                                               (Some (Z.of_nat (i + k))))
                         (seq 0 (k + String.length r mod k + 1))) d))
      as (d' & Hd' & Htot).
    exists d'. split; [exact Hd'|].
    rewrite Htot, dict_total_fold, length_map, length_seq.
    unfold emitted. simpl. lia.
Qed.

(** X1.  [read_fastq] reads the file by records of four lines: when the
    number of lines is a multiple of four it yields one read per
    record, the second line of the record without the white space at
    its ends; otherwise the last record is cut short and the generator
    ends in [RuntimeError]. *)
Theorem X1_read_fastq_records (lines : list string) :
  read_fastq lines =
    if List.length lines mod 4 =? 0
    then Ok (map (fun i => strip (nth (4 * i + 1) lines ""))
                 (seq 0 (List.length lines / 4)))
    else Err RuntimeError.
Proof. apply read_fastq_closed_form. Qed.

(** X2.  The counts do not depend on the order of the reads: two files
    whose reads are the same up to their order give, for a size
    [k >= 1], dictionaries with the same count for every string. *)
Theorem X2_counts_order_independent (file1 file2 reads1 reads2 : list string)
    (k : nat) :
  1 <= k ->
  read_fastq file1 = Ok reads1 ->
  read_fastq file2 = Ok reads2 ->
  Permutation reads1 reads2 ->
  exists d1 d2,
    build_kmer_dict file1 k = Ok d1 /\
    build_kmer_dict file2 k = Ok d2 /\
    forall s, dict_get d1 s = dict_get d2 s.
Proof.
  intros Hk H1 H2 Hperm.
  destruct (build_kmer_dict_counts file1 reads1 k Hk H1) as (ks1 & d1 & Hm1 & Hb1 & Hc1 & _).
  destruct (build_kmer_dict_counts file2 reads2 k Hk H2) as (ks2 & d2 & Hm2 & Hb2 & Hc2 & _).
  exists d1, d2. split; [exact Hb1|]. split; [exact Hb2|].
  intros s. rewrite (Hc1 s), (Hc2 s).
  rewrite (mapM_cut_kmer k reads1 Hk) in Hm1. injection Hm1 as <-.
  rewrite (mapM_cut_kmer k reads2 Hk) in Hm2. injection Hm2 as <-.
  assert (count_occ string_dec
            (List.concat (map (fun read =>
               map (fun i => str_slice read (Some (Z.of_nat i)) (Some (Z.of_nat (i + k))))
                   (seq 0 (k + String.length read mod k + 1))) reads1)) s
          = count_occ string_dec
            (List.concat (map (fun read =>
               map (fun i => str_slice read (Some (Z.of_nat i)) (Some (Z.of_nat (i + k))))
                   (seq 0 (k + String.length read mod k + 1))) reads2)) s) as ->.
  { apply Permutation_count_occ. now apply Permutation_concat_map. }
  reflexivity.
Qed.

Lemma X2_counts_order_independent_witness :
  exists d1 d2,
    build_kmer_dict ["@1"; "AATCG"; "+"; "IIIII"; "@2"; "TCGAT"; "+"; "IIIII"] 3 = Ok d1 /\
    build_kmer_dict ["@2"; "TCGAT"; "+"; "IIIII"; "@1"; "AATCG"; "+"; "IIIII"] 3 = Ok d2 /\
    forall s, dict_get d1 s = dict_get d2 s.
Proof.
  apply (X2_counts_order_independent _ _ ["AATCG"; "TCGAT"] ["TCGAT"; "AATCG"]).
  - lia.
  - reflexivity.
  - reflexivity.
  - apply perm_swap.
Defined.

(** X3.  On a complete file (a multiple of four lines) and with the
    size 0, [build_kmer_dict] raises [ZeroDivisionError] as soon as
    the file has one read, and returns the empty dictionary on a file
    without any line.  With a size of at least one, a file whose last
    record is cut short makes it raise [RuntimeError]. *)
Theorem X3_build_kmer_dict_errors (fastq_file : list string) (k : nat) :
  (List.length fastq_file mod 4 = 0 ->
   build_kmer_dict fastq_file 0 =
     if List.length fastq_file =? 0 then Ok [] else Err ZeroDivisionError) /\
  (1 <= k -> List.length fastq_file mod 4 <> 0 ->
   build_kmer_dict fastq_file k = Err RuntimeError).
Proof.
  unfold build_kmer_dict. rewrite read_fastq_closed_form. split.
  - intros E. rewrite E. simpl Nat.eqb. cbv iota. unfold bind.
    destruct (Nat.eqb_spec (List.length fastq_file) 0) as [E0 | E0].
    + rewrite E0. reflexivity.
    + pose proof (Nat.div_mod_eq (List.length fastq_file) 4) as Hdiv.
      destruct (List.length fastq_file / 4) as [| q]; [lia|].
      rewrite <- cons_seq. reflexivity.
  - intros _ E.
    destruct (Nat.eqb_spec (List.length fastq_file mod 4) 0) as [E' | _];
      [contradiction | reflexivity].
Qed.

Lemma X3_build_kmer_dict_errors_witness :
  build_kmer_dict ["@1"; "AATCG"; "+"; "IIIII"] 0 = Err ZeroDivisionError /\
  build_kmer_dict ["@1"; "AATCG"; "+"; "IIIII"; "@2"; "TCGAT"] 3 = Err RuntimeError.
Proof.
  split.
  - apply (X3_build_kmer_dict_errors ["@1"; "AATCG"; "+"; "IIIII"] 0). reflexivity.
  - apply (X3_build_kmer_dict_errors ["@1"; "AATCG"; "+"; "IIIII"; "@2"; "TCGAT"] 3).
    + lia.
    + simpl. lia.
Defined.

(** X4.  For a size [k >= 1] the counts of the dictionary add up to the
    number of substrings that were cut: [k + L mod k + 1] for every
    read of length [L]. *)
Theorem X4_counts_add_up (fastq_file reads : list string) (k : nat) :
  1 <= k ->
  read_fastq fastq_file = Ok reads ->
  exists d,
    build_kmer_dict fastq_file k = Ok d /\
    dict_total d = Z.of_nat (emitted k reads).
Proof.
  intros Hk Hreads. unfold build_kmer_dict. rewrite Hreads. unfold bind.
  destruct (count_reads_total k reads Hk []) as (d & Hd & Htot).
  exists d. split; [exact Hd|]. rewrite Htot. reflexivity.
Qed.

Lemma X4_counts_add_up_witness :
  exists d,
    build_kmer_dict ["@1"; "AATCG"; "+"; "IIIII"; "@2"; "TCGAT"; "+"; "IIIII"] 3 = Ok d /\
    dict_total d = 12%Z.
Proof.
  apply (X4_counts_add_up _ ["AATCG"; "TCGAT"] 3).
  - lia.
  - reflexivity.
Defined.

(** ** The graph of a dictionary, its starting nodes and its sinks *)

Lemma tl_removelast {A : Type} (l : list A) : tl (removelast l) = removelast (tl l).
Proof. destruct l as [| a [| b r]]; reflexivity. Qed.

Lemma length_drop_last {A : Type} (l : list A) :
  List.length (removelast l) = List.length l - 1.
Proof.
  induction l as [| a [| b r] IH]; [reflexivity | reflexivity |].
  change (removelast (a :: b :: r)) with (a :: removelast (b :: r)).
  simpl List.length in *. lia.
Qed.

Lemma kmer_prefix_length s : String.length (kmer_prefix s) = String.length s - 1.
Proof.
  unfold kmer_prefix, str_slice.
  now rewrite length_string_of_list, slice_drop_last, length_drop_last, length_list_ascii.
Qed.

Lemma kmer_suffix_length s : String.length (kmer_suffix s) = String.length s - 1.
Proof.
  unfold kmer_suffix, str_slice.
  rewrite length_string_of_list, slice_tail, <- length_list_ascii.
  destruct (list_ascii_of_string s); simpl; lia.
Qed.

Lemma kmer_ends_overlap s : overlaps (kmer_prefix s) (kmer_suffix s).
Proof.
  unfold overlaps, kmer_prefix, kmer_suffix, str_slice.
  rewrite !list_ascii_of_string_of_list_ascii.
  now rewrite !slice_drop_last, !slice_tail, tl_removelast.
Qed.

Lemma predecessors_nil g n :
  predecessors g n = [] <-> forall e, In e (edges g) -> dst e <> n.
Proof.
  unfold predecessors. split.
  - intros H e He E.
    assert (In (src e) (map src (filter (fun e => String.eqb (dst e) n) (edges g)))) as Hin.
    { apply in_map, filter_In. split; [assumption | now apply String.eqb_eq]. }
    rewrite H in Hin. contradiction.
  - intros H. destruct (map src _) as [| p ps] eqn:E; [reflexivity|].
    assert (In p (map src (filter (fun e => String.eqb (dst e) n) (edges g)))) as Hin
        by (rewrite E; now left).
    apply in_map_iff in Hin as [e [_ He]]. apply filter_In in He as [He Hd].
    apply String.eqb_eq in Hd. exfalso. now apply (H e).
Qed.

Lemma successors_nil g n :
  successors g n = [] <-> forall e, In e (edges g) -> src e <> n.
Proof.
  unfold successors. split.
  - intros H e He E.
    assert (In (dst e) (map dst (filter (fun e => String.eqb (src e) n) (edges g)))) as Hin.
    { apply in_map, filter_In. split; [assumption | now apply String.eqb_eq]. }
    rewrite H in Hin. contradiction.
  - intros H. destruct (map dst _) as [| p ps] eqn:E; [reflexivity|].
    assert (In p (map dst (filter (fun e => String.eqb (src e) n) (edges g)))) as Hin
        by (rewrite E; now left).
    apply in_map_iff in Hin as [e [_ He]]. apply filter_In in He as [He Hs].
    apply String.eqb_eq in Hs. exfalso. now apply (H e).
Qed.

Lemma get_starting_nodes_In g n :
  In n (get_starting_nodes g) <->
  In n (nodes g) /\ forall e, In e (edges g) -> dst e <> n.
Proof.
  unfold get_starting_nodes. rewrite filter_In, <- predecessors_nil.
  destruct (predecessors g n); intuition congruence.
Qed.

Lemma get_sink_nodes_In g n :
  In n (get_sink_nodes g) <->
  In n (nodes g) /\ forall e, In e (edges g) -> src e <> n.
Proof.
  unfold get_sink_nodes. rewrite filter_In, <- successors_nil.
  destruct (successors g n); intuition congruence.
Qed.

(** X5.  In the graph of a dictionary every edge joins two overlapping
    strings: the source without its first character is the target
    without its last one. *)
Theorem X5_edges_overlap (d : dict) (e : edge) :
  In e (edges (build_graph d)) -> overlaps (src e) (dst e).
Proof.
  intros He. apply build_edges_origin in He as [[] | (s & w & _ & ->)].
  apply kmer_ends_overlap.
Qed.

Lemma X5_edges_overlap_witness : overlaps "AT" "TC".
Proof.
  apply (X5_edges_overlap [("AAT", 1%Z); ("ATC", 2%Z)] ("AT", "TC", 2%Z)).
  vm_compute. tauto.
Defined.

(** X6.  When every k-mer of the dictionary has the length [k], every
    node of the graph has the length [k - 1]. *)
Theorem X6_nodes_length (d : dict) (k : nat) (n : string) :
  (forall s w, In (s, w) d -> String.length s = k) ->
  In n (nodes (build_graph d)) ->
  String.length n = k - 1.
Proof.
  intros Hk Hn. apply build_nodes in Hn as [[] | (s & w & Hin & [-> | ->])].
  - rewrite kmer_prefix_length. now rewrite (Hk s w Hin).
  - rewrite kmer_suffix_length. now rewrite (Hk s w Hin).
Qed.

Lemma X6_nodes_length_witness : String.length "TC" = 3 - 1.
Proof.
  apply (X6_nodes_length [("AAT", 1%Z); ("ATC", 2%Z)] 3 "TC").
  - intros s w [[= <- <-] | [[= <- <-] | []]]; reflexivity.
  - vm_compute. tauto.
Defined.

(** X7.  The graph of a dictionary has no isolated node: every node is
    an end of some edge, so that no node is at once a starting node and
    a sink. *)
Theorem X7_no_isolated_node (d : dict) (n : string) :
  In n (nodes (build_graph d)) ->
  (exists e, In e (edges (build_graph d)) /\ (src e = n \/ dst e = n)) /\
  ~ (In n (get_starting_nodes (build_graph d)) /\
     In n (get_sink_nodes (build_graph d))).
Proof.
  intros Hn.
  assert (exists e, In e (edges (build_graph d)) /\ (src e = n \/ dst e = n)) as Hedge.
  { apply build_nodes in Hn as [[] | (s & w & Hin & Hn)].
    destruct (build_entry_edge d Nx.empty s w Hin) as [w' He].
    exists (kmer_prefix s, kmer_suffix s, w'). split; [exact He|].
    unfold src, dst. simpl. destruct Hn; subst; auto. }
  split; [exact Hedge|].
  intros [Hs Hk]. destruct Hedge as (e & He & [E | E]).
  - apply get_sink_nodes_In in Hk as [_ Hk]. now apply (Hk e).
  - apply get_starting_nodes_In in Hs as [_ Hs]. now apply (Hs e).
Qed.

Lemma X7_no_isolated_node_witness :
  ~ (In "AT" (get_starting_nodes (build_graph [("AAT", 1%Z); ("ATC", 2%Z)])) /\
     In "AT" (get_sink_nodes (build_graph [("AAT", 1%Z); ("ATC", 2%Z)]))).
Proof.
  apply (X7_no_isolated_node [("AAT", 1%Z); ("ATC", 2%Z)] "AT").
  vm_compute. tauto.
Defined.

(** X8.  The starting nodes of the graph of a dictionary are the
    prefixes of its k-mers that are the suffix of none, and its sinks
    the suffixes that are the prefix of none. *)
Theorem X8_starts_and_sinks_of_dict (d : dict) (n : string) :
  (In n (get_starting_nodes (build_graph d)) <->
   (exists s w, In (s, w) d /\ n = kmer_prefix s) /\
   (forall s w, In (s, w) d -> n <> kmer_suffix s)) /\
  (In n (get_sink_nodes (build_graph d)) <->
   (exists s w, In (s, w) d /\ n = kmer_suffix s) /\
   (forall s w, In (s, w) d -> n <> kmer_prefix s)).
Proof.
  split.
  - rewrite get_starting_nodes_In. split.
    + intros [Hn Hno].
      assert (forall s w, In (s, w) d -> n <> kmer_suffix s) as Hsuf.
      { intros s w Hin ->.
        destruct (build_entry_edge d Nx.empty s w Hin) as [w' He].
        now apply (Hno _ He). }
      split; [| exact Hsuf].
      apply build_nodes in Hn as [[] | (s & w & Hin & [E | E])].
      * now exists s, w.
      * exfalso. now apply (Hsuf s w Hin).
    + intros [(s & w & Hin & ->) Hsuf]. split.
      * apply build_nodes. right. exists s, w. auto.
      * intros e He Hd. apply build_edges_origin in He as [[] | (s' & w' & Hin' & ->)].
        apply (Hsuf s' w' Hin'). now symmetry.
  - rewrite get_sink_nodes_In. split.
    + intros [Hn Hno].
      assert (forall s w, In (s, w) d -> n <> kmer_prefix s) as Hpre.
      { intros s w Hin ->.
        destruct (build_entry_edge d Nx.empty s w Hin) as [w' He].
        now apply (Hno _ He). }
      split; [| exact Hpre].
      apply build_nodes in Hn as [[] | (s & w & Hin & [E | E])].
      * exfalso. now apply (Hpre s w Hin).
      * now exists s, w.
    + intros [(s & w & Hin & ->) Hpre]. split.
      * apply build_nodes. right. exists s, w. auto.
      * intros e He Hs. apply build_edges_origin in He as [[] | (s' & w' & Hin' & ->)].
        apply (Hpre s' w' Hin'). now symmetry.
Qed.

(** ** Removing paths, in closed form *)

Lemma filter_all {A : Type} (p : A -> bool) (l : list A) :
  (forall x, In x l -> p x = true) -> filter p l = l.
Proof.
  induction l as [| a l IH]; intros H; [reflexivity|].
  simpl. rewrite (H a) by (now left). f_equal. apply IH. intros x Hx. apply H. now right.
Qed.

Lemma filter_twice {A : Type} (p q : A -> bool) (l : list A) :
  filter p (filter q l) = filter (fun x => q x && p x) l.
Proof.
  induction l as [| a l IH]; [reflexivity|].
  simpl. destruct (q a); simpl; [destruct (p a) |]; now rewrite IH.
Qed.

Lemma mem_app n (a b : list string) : mem n (a ++ b) = mem n a || mem n b.
Proof. unfold mem. apply existsb_app. Qed.

Lemma mem_same n (a b : list string) :
  (forall x, In x a <-> In x b) -> mem n a = mem n b.
Proof.
  intros H. destruct (mem n b) eqn:E.
  - apply mem_In. apply H. now apply mem_In.
  - apply mem_not_In. intros Hin. apply H in Hin.
    apply mem_In in Hin. congruence.
Qed.

Lemma without_nodes_same g (a b : list string) :
  (forall x, In x a <-> In x b) -> without_nodes g a = without_nodes g b.
Proof.
  intros H. unfold without_nodes. f_equal; apply filter_ext; intros x.
  - now rewrite (mem_same x a b H).
  - now rewrite (mem_same (src x) a b H), (mem_same (dst x) a b H).
Qed.

Lemma without_nodes_nil g : without_nodes g [] = g.
Proof.
  destruct g as [ns es]. unfold without_nodes. simpl.
  f_equal; apply filter_all; reflexivity.
Qed.

Lemma without_nodes_app g (a b : list string) :
  without_nodes (without_nodes g a) b = without_nodes g (a ++ b).
Proof.
  unfold without_nodes. simpl. rewrite !filter_twice.
  f_equal; apply filter_ext; intros x; rewrite !mem_app.
  - now rewrite negb_orb.
  - rewrite !negb_orb.
    destruct (mem (src x) a), (mem (dst x) a), (mem (src x) b), (mem (dst x) b);
      reflexivity.
Qed.

Lemma remove_node_closed g n : wf g -> remove_node g n = without_nodes g [n].
Proof.
  intros Hwf. unfold remove_node, without_nodes.
  destruct (has_node g n) eqn:E.
  - f_equal; apply filter_ext; intros x; unfold mem; simpl; now rewrite !orb_false_r.
  - apply mem_not_In in E. destruct g as [ns es]. simpl in *.
    f_equal; symmetry; apply filter_all.
    + intros x Hx. unfold mem. simpl. rewrite orb_false_r.
      apply negb_true_iff, String.eqb_neq. intros ->. contradiction.
    + intros e He. destruct (wf_ends _ Hwf e He) as [Hs Hd]. simpl in Hs, Hd.
      unfold mem. simpl. rewrite !orb_false_r.
      apply andb_true_iff. split; apply negb_true_iff, String.eqb_neq;
        intros E'; rewrite E' in *; contradiction.
Qed.

Lemma remove_nodes_from_closed ns : forall g,
  wf g -> remove_nodes_from g ns = without_nodes g ns.
Proof.
  induction ns as [| n ns IH]; intros g Hwf.
  - symmetry. apply without_nodes_nil.
  - change (remove_nodes_from g (n :: ns))
      with (remove_nodes_from (remove_node g n) ns).
    rewrite IH by (now apply remove_node_wf).
    rewrite remove_node_closed by assumption.
    apply without_nodes_app.
Qed.

Lemma remove_nodes_from_app g (a b : list string) :
  remove_nodes_from g (a ++ b) = remove_nodes_from (remove_nodes_from g a) b.
Proof. unfold remove_nodes_from. apply fold_left_app. Qed.

Lemma remove_paths_concat paths : forall g de ds,
  remove_paths g paths de ds
  = remove_nodes_from g (List.concat (map (doomed de ds) paths)).
Proof.
  induction paths as [| p paths IH]; intros g de ds; [reflexivity|].
  change (remove_paths g (p :: paths) de ds)
    with (remove_paths (remove_nodes_from g (doomed de ds p)) paths de ds).
  rewrite IH. simpl. now rewrite remove_nodes_from_app.
Qed.

Lemma remove_paths_closed g paths de ds :
  wf g ->
  remove_paths g paths de ds
  = without_nodes g (List.concat (map (deleted_nodes de ds) paths)).
Proof.
  intros Hwf. rewrite remove_paths_concat, remove_nodes_from_closed by assumption.
  f_equal. f_equal. apply map_ext. intros p. apply doomed_deleted.
Qed.

Lemma remove_node_subgraph g n : subgraph_of (remove_node g n) g.
Proof.
  unfold remove_node, subgraph_of. destruct (has_node g n); simpl.
  - split; apply incl_filter.
  - split; apply incl_refl.
Qed.

Lemma subgraph_of_trans g1 g2 g3 :
  subgraph_of g1 g2 -> subgraph_of g2 g3 -> subgraph_of g1 g3.
Proof.
  intros [H1 H2] [H3 H4]. split; eapply incl_tran; eassumption.
Qed.

Lemma subgraph_of_refl g : subgraph_of g g.
Proof. split; apply incl_refl. Qed.

Lemma remove_nodes_from_subgraph ns : forall g,
  subgraph_of (remove_nodes_from g ns) g.
Proof.
  induction ns as [| n ns IH]; intros g; [apply subgraph_of_refl|].
  change (remove_nodes_from g (n :: ns))
    with (remove_nodes_from (remove_node g n) ns).
  eapply subgraph_of_trans; [apply IH | apply remove_node_subgraph].
Qed.

Lemma remove_paths_subgraph g paths de ds :
  subgraph_of (remove_paths g paths de ds) g.
Proof. rewrite remove_paths_concat. apply remove_nodes_from_subgraph. Qed.

(** X9.  On a well-formed graph [remove_paths] is one filtering: the
    result has the nodes that no losing path deletes and the edges
    between them, in the order they had, and it is well formed. *)
Theorem X9_remove_paths_filters (g : DiGraph) (paths : list (list string))
    (de ds : bool) :
  wf g ->
  remove_paths g paths de ds
  = without_nodes g (List.concat (map (deleted_nodes de ds) paths)) /\
  wf (remove_paths g paths de ds).
Proof.
  intros Hwf. split; [now apply remove_paths_closed | now apply remove_paths_wf].
Qed.

Lemma X9_remove_paths_filters_witness :
  wf (remove_paths bubble_with_tail [["A"; "C"; "D"]] false false).
Proof.
  apply (X9_remove_paths_filters bubble_with_tail [["A"; "C"; "D"]] false false).
  apply build_wf, empty_wf.
Defined.

(** X10.  On a well-formed graph the result of [remove_paths] does not
    depend on the order of the losing paths, and removing the same
    paths a second time changes nothing. *)
Theorem X10_remove_paths_order_and_repeat (g : DiGraph)
    (paths paths' : list (list string)) (de ds : bool) :
  wf g ->
  Permutation paths paths' ->
  remove_paths g paths de ds = remove_paths g paths' de ds /\
  remove_paths (remove_paths g paths de ds) paths de ds = remove_paths g paths de ds.
Proof.
  intros Hwf Hperm. split.
  - rewrite !remove_paths_closed by assumption.
    apply without_nodes_same. intros x.
    pose proof (Permutation_concat_map (deleted_nodes de ds) _ _ Hperm) as Hp.
    split; intros H.
    + eapply Permutation_in; eassumption.
    + eapply Permutation_in; [apply Permutation_sym|]; eassumption.
  - rewrite (remove_paths_closed (remove_paths g paths de ds))
      by (now apply remove_paths_wf).
    rewrite (remove_paths_closed g) by assumption.
    rewrite without_nodes_app. apply without_nodes_same.
    intros x. rewrite in_app_iff. tauto.
Qed.

Lemma X10_remove_paths_order_and_repeat_witness :
  remove_paths bubble_with_tail [["A"; "C"; "D"]; ["A"; "B"; "D"]] false false
  = remove_paths bubble_with_tail [["A"; "B"; "D"]; ["A"; "C"; "D"]] false false.
Proof.
  apply (X10_remove_paths_order_and_repeat bubble_with_tail
           [["A"; "C"; "D"]; ["A"; "B"; "D"]] [["A"; "B"; "D"]; ["A"; "C"; "D"]]
           false false).
  - apply build_wf, empty_wf.
  - apply perm_swap.
Defined.

(** ** The selector and the resolution of a bubble *)

Lemma list_pop_nat {A : Type} (l : list A) (i : nat) (l' : list A) :
  list_pop (G := DiGraph) l (IntArg (Z.of_nat i)) = Ok l' ->
  i < List.length l /\ l' = remove_nth i l.
Proof.
  intros H. destruct (Nat.lt_ge_cases i (List.length l)) as [Hlt | Hge].
  - rewrite list_pop_valid in H by assumption. injection H as <-. auto.
  - rewrite list_pop_past_end in H by assumption. discriminate.
Qed.

Lemma select_best_path_spares_one st g paths lens ws de ds g' st' :
  select_best_path st g paths lens ws de ds = Ok (g', st') ->
  exists index,
    index < List.length paths /\
    g' = remove_paths g (remove_nth index paths) de ds.
Proof.
  unfold select_best_path.
  destruct (select_index st paths lens ws) as [[index st1] | e]; [| discriminate].
  unfold bind at 1.
  destruct (list_pop paths (IntArg (Z.of_nat index))) as [losers |] eqn:E;
    [| discriminate].
  apply list_pop_nat in E as [Hlt ->]. unfold bind. intros [= <- <-].
  now exists index.
Qed.

Lemma remove_nth_In {A : Type} (i : nat) (l : list A) (x : A) :
  In x (remove_nth i l) -> In x l.
Proof.
  revert i. induction l as [| a l IH]; intros [| i]; simpl; try tauto.
  intros [-> | H]; [now left | right; eauto].
Qed.

Lemma simple_paths_from_shape g target (fuel : nat) :
  forall visited current p,
    NoDup visited -> ~ In target visited ->
    In p (simple_paths_from fuel g target visited current) ->
    NoDup p /\ exists mid, p = visited ++ mid ++ [target].
Proof.
  induction fuel as [| fuel IH]; intros visited current p Hnd Hnot Hin; [contradiction|].
  simpl in Hin. apply in_flat_map in Hin as (child & _ & Hin).
  destruct (mem child visited) eqn:Ev; [contradiction|].
  apply mem_not_In in Ev.
  assert (NoDup (visited ++ [child])) as Hnd'.
  { apply NoDup_app; [assumption | repeat constructor; simpl; tauto |].
    intros x Hx [<- | []]. contradiction. }
  destruct (String.eqb_spec child target) as [-> | Hne].
  - destruct Hin as [<- | []]. split; [assumption|]. now exists [].
  - apply IH in Hin as [Hp (mid & ->)]; [| assumption |].
    + split; [assumption|]. exists (child :: mid). now rewrite <- app_assoc.
    + rewrite in_app_iff. simpl. intuition congruence.
Qed.

Lemma all_simple_paths_shape g source target paths p :
  all_simple_paths g source target = Ok paths ->
  In p paths ->
  In source (nodes g) /\ In target (nodes g) /\
  NoDup p /\ exists mid, p = source :: mid ++ [target].
Proof.
  unfold all_simple_paths.
  destruct (has_node g source) eqn:Es; [| discriminate].
  destruct (has_node g target) eqn:Et; [| discriminate].
  apply has_node_In in Es, Et. simpl.
  destruct (String.eqb_spec source target) as [E | Hne].
  - intros [= <-] [].
  - intros [= <-] Hin.
    apply simple_paths_from_shape in Hin as [Hnd (mid & ->)].
    + repeat split; try assumption. now exists mid.
    + repeat constructor. simpl. tauto.
    + simpl. intuition congruence.
Qed.

Lemma interior_of_simple_path (a d : string) (mid : list string) :
  NoDup (a :: mid ++ [d]) ->
  deleted_nodes false false (a :: mid ++ [d]) = mid /\ ~ In a mid /\ ~ In d mid.
Proof.
  intros Hnd. unfold deleted_nodes. simpl tl. rewrite removelast_last.
  inversion Hnd as [| ? ? Ha Hrest]; subst.
  split; [reflexivity|]. split.
  - intros H. apply Ha, in_or_app. now left.
  - apply NoDup_remove_2 in Hrest. now rewrite app_nil_r in Hrest.
Qed.

Lemma solve_bubble_result st g a d g' st' :
  solve_bubble st g a d = Ok (g', st') ->
  exists paths index,
    all_simple_paths g a d = Ok paths /\
    index < List.length paths /\
    g' = remove_paths g (remove_nth index paths) false false.
Proof.
  unfold solve_bubble.
  destruct (all_simple_paths g a d) as [paths | e] eqn:Ep; [| discriminate].
  unfold bind at 1.
  destruct (mapM (path_average_weight g) paths) as [ws | e]; [| discriminate].
  unfold bind at 1. intros H.
  apply select_best_path_spares_one in H as (index & Hlt & ->).
  now exists paths, index.
Qed.

(** X11.  Whenever [select_best_path] returns, exactly one candidate
    was spared: the graph returned is the one that [remove_paths]
    gives for the candidate list without one of its elements.  In
    particular it raises on an empty candidate list, whatever the two
    other lists. *)
Theorem X11_selector_spares_one (st : random_state) (g : DiGraph)
    (paths : list (list string)) (lens : list Z) (ws : list Q) (de ds : bool)
    (g' : DiGraph) (st' : random_state) :
  select_best_path st g paths lens ws de ds = Ok (g', st') ->
  paths <> [] /\
  exists index,
    index < List.length paths /\
    g' = remove_paths g (remove_nth index paths) de ds.
Proof.
  intros H. apply select_best_path_spares_one in H as (index & Hlt & ->).
  split.
  - destruct paths; [simpl in Hlt; lia | discriminate].
  - now exists index.
Qed.

Lemma X11_selector_spares_one_witness :
  exists index,
    index < 2 /\
    two_tips = remove_paths two_tips (remove_nth index [["A"; "C"]; ["B"; "C"]])
                            false false.
Proof.
  apply (X11_selector_spares_one 0 two_tips [["A"; "C"]; ["B"; "C"]]
           [2%Z; 2%Z] [1%Q; 2%Q] false false two_tips 0).
  reflexivity.
Defined.

(** X12.  When no path joins the two nodes, [solve_bubble] hands empty
    lists to the selector, which draws the index 0 and raises
    [IndexError] on the empty candidate list. *)
Theorem X12_solve_bubble_without_path (st : random_state) (g : DiGraph)
    (a d : string) :
  all_simple_paths g a d = Ok [] ->
  solve_bubble st g a d = Err IndexError.
Proof.
  intros H. unfold solve_bubble. rewrite H. unfold bind at 1. simpl mapM.
  unfold bind at 1. simpl map.
  unfold select_best_path, select_index. simpl List.length. simpl Nat.ltb.
  unfold bind at 2 3. rewrite randint_from_zero. unfold bind at 1.
  change (0 + 1) with 1. rewrite Nat.mod_1_r. reflexivity.
Qed.

Lemma X12_solve_bubble_without_path_witness :
  solve_bubble 0 bubble_with_tail "E" "A" = Err IndexError.
Proof.
  apply (X12_solve_bubble_without_path 0 bubble_with_tail "E" "A").
  reflexivity.
Defined.

Lemma solve_bubble_frame (st : random_state) (g : DiGraph)
    (a d : string) (g' : DiGraph) (st' : random_state) :
  solve_bubble st g a d = Ok (g', st') ->
  In a (nodes g') /\ In d (nodes g') /\
  subgraph_of g' g /\ (wf g -> wf g').
Proof.
  intros H. apply solve_bubble_result in H as (paths & index & Hp & Hlt & ->).
  assert (forall p, In p (remove_nth index paths) ->
            ~ In a (doomed false false p) /\ ~ In d (doomed false false p)) as Hkeep.
  { intros p Hin. apply remove_nth_In in Hin.
    destruct (all_simple_paths_shape _ _ _ _ _ Hp Hin) as (_ & _ & Hnd & mid & ->).
    rewrite doomed_deleted.
    destruct (interior_of_simple_path a d mid Hnd) as (-> & Ha & Hd). auto. }
  assert (In a (nodes g) /\ In d (nodes g)) as [Ha Hd].
  { destruct paths as [| p paths]; [simpl in Hlt; lia|].
    destruct (all_simple_paths_shape _ _ _ _ p Hp (or_introl eq_refl)) as (Ha & Hd & _).
    auto. }
  split; [| split; [| split]].
  - apply remove_paths_nodes. split; [assumption|]. intros p Hin. now apply Hkeep.
  - apply remove_paths_nodes. split; [assumption|]. intros p Hin. now apply Hkeep.
  - apply remove_paths_subgraph.
  - intros Hwf. now apply remove_paths_wf.
Qed.



(** ** The two resolvers *)

Lemma scan_nodes_no_pair g (todo : list string) :
  (forall n, In n todo -> List.length (predecessors g n) <= 1) ->
  forall s, exists s', scan_nodes g todo s = Ok s' /\ bubble s' = bubble s.
Proof.
  induction todo as [| n todo IH]; intros Hall s.
  - exists s. split; reflexivity.
  - simpl scan_nodes.
    destruct (Nat.ltb_spec 1 (List.length (predecessors g n))) as [Hlt | _].
    + specialize (Hall n (or_introl eq_refl)). lia.
    + unfold bind.
      destruct (IH (fun m Hm => Hall m (or_intror Hm))
                   (mkScan (bubble s) (ancestor_node s) (Some n))) as (s' & Hs' & Hb).
      exists s'. split; [exact Hs' | exact Hb].
Qed.

Lemma simplify_bubbles_subgraph depth : forall st g g' st',
  simplify_bubbles depth st g = Ok (g', st') ->
  subgraph_of g' g /\ (wf g -> wf g').
Proof.
  induction depth as [| depth IH]; intros st g g' st'; [discriminate|].
  rewrite simplify_bubbles_step.
  destruct (scan_nodes g (nodes g) _) as [s | e]; [| discriminate]. unfold bind at 1.
  destruct (bubble s).
  - destruct (ancestor_node s) as [a |]; [| discriminate].
    destruct (node s) as [n |]; [| discriminate].
    destruct (solve_bubble st g a n) as [[g1 st1] | e] eqn:E; [| discriminate].
    unfold bind. simpl fst. simpl snd. intros H.
    apply IH in H as [Hsub Hwf].
    apply solve_bubble_frame in E as (_ & _ & Hsub1 & Hwf1).
    split; [eapply subgraph_of_trans; eassumption | auto].
  - intros [= <- <-]. split; [apply subgraph_of_refl | auto].
Qed.

(** X14.  Whenever [simplify_bubbles] returns, a scan of the graph it
    returns finds no bubble, no node and no edge was added, and a
    well-formed graph stays well formed. *)
Theorem X14_simplify_bubbles_result (depth : nat) (st : random_state)
    (g g' : DiGraph) (st' : random_state) :
  simplify_bubbles depth st g = Ok (g', st') ->
  (exists s, scan_nodes g' (nodes g') (mkScan false None None) = Ok s /\
             bubble s = false) /\
  subgraph_of g' g /\ (wf g -> wf g').
Proof.
  intros H. split.
  - eapply simplify_bubbles_returns_clean. exact H.
  - eapply simplify_bubbles_subgraph. exact H.
Qed.

Lemma X14_simplify_bubbles_result_witness :
  subgraph_of (mkDiGraph ["A"; "B"; "E"] [("A", "B", 10%Z)]) bubble_with_tail.
Proof.
  destruct (X14_simplify_bubbles_result 2 0 bubble_with_tail
              (mkDiGraph ["A"; "B"; "E"] [("A", "B", 10%Z)]) 0) as (_ & Hsub & _).
  - vm_compute. reflexivity.
  - exact Hsub.
Defined.

(** X15.  On a graph where no node has more than one predecessor (a
    chain, a tree) there is no pair to compare: [simplify_bubbles]
    returns the graph as it is, without a call to the graph library
    and at any depth of at least one. *)
Theorem X15_simplify_bubbles_no_junction (depth : nat) (st : random_state)
    (g : DiGraph) :
  (forall n, In n (nodes g) -> List.length (predecessors g n) <= 1) ->
  simplify_bubbles (S depth) st g = Ok (g, st).
Proof.
  intros Hall.
  destruct (scan_nodes_no_pair g (nodes g) Hall (mkScan false None None))
    as (s & Hs & Hb).
  now apply (simplify_bubbles_stop depth st g s).
Qed.

Lemma X15_simplify_bubbles_no_junction_witness :
  simplify_bubbles 1 0 (build_graph [("AAT", 1%Z); ("ATC", 2%Z)])
  = Ok (build_graph [("AAT", 1%Z); ("ATC", 2%Z)], 0).
Proof.
  apply (X15_simplify_bubbles_no_junction 0 0).
  intros n Hn. vm_compute in Hn.
  repeat (destruct Hn as [<- | Hn]; [vm_compute; lia|]). contradiction.
Defined.

Lemma entry_tips_loop_quiet (todo : list string) : forall st g starting,
  (forall n, In n todo -> List.length (tip_predecessors g starting n) <= 1) ->
  entry_tips_loop (List.length (nodes g)) todo st g starting = Ok (g, st).
Proof.
  induction todo as [| n todo IH]; intros st g starting Hall; simpl.
  - now rewrite Nat.eqb_refl.
  - rewrite Nat.eqb_refl. simpl negb. cbv iota.
    destruct (Nat.ltb_spec 1 (List.length (tip_predecessors g starting n))) as [Hlt | _].
    + specialize (Hall n (or_introl eq_refl)). lia.
    + unfold bind. simpl fst. simpl snd. apply IH.
      intros m Hm. apply Hall. now right.
Qed.

(** X16.  [solve_entry_tips] returns exactly when no node has two
    predecessors among the starting nodes, and what it then returns is
    the graph it was given; as soon as a node has two such
    predecessors the call raises instead of returning. *)
Theorem X16_solve_entry_tips_returns_unchanged (st : random_state) (g : DiGraph)
    (starting_nodes : list string) :
  (forall r, solve_entry_tips st g starting_nodes = Ok r -> r = (g, st)) /\
  ((exists r, solve_entry_tips st g starting_nodes = Ok r) <->
   (forall n, In n (nodes g) ->
      List.length (tip_predecessors g starting_nodes n) <= 1)).
Proof.
  split.
  - intros r H. now apply solve_entry_tips_unchanged in H.
  - split.
    + intros [r H]. now apply solve_entry_tips_unchanged in H.
    + intros Hall. exists (g, st). now apply entry_tips_loop_quiet.
Qed.

(** ** Contigs *)

Lemma list_ascii_app (s1 s2 : string) :
  list_ascii_of_string (s1 ++ s2)%string
  = list_ascii_of_string s1 ++ list_ascii_of_string s2.
Proof. induction s1 as [| c s1 IH]; simpl; [reflexivity | now rewrite IH]. Qed.

Lemma nonempty_snoc (s : string) :
  s <> "" ->
  list_ascii_of_string s
  = removelast (list_ascii_of_string s) ++ [last_or_space s].
Proof.
  intros H. apply app_removelast_last.
  destruct s; [congruence | discriminate].
Qed.

Lemma last_char_ok (s : string) : s <> "" -> last_char s = Ok (last_or_space s).
Proof.
  intros H. unfold last_char. rewrite (nonempty_snoc s H) at 1.
  now rewrite rev_app_distr.
Qed.

Lemma last_char_empty : last_char "" = Err IndexError.
Proof. reflexivity. Qed.

Lemma extend_contig_ok (rest : list string) : forall contig,
  (forall n, In n rest -> n <> "") ->
  extend_contig contig rest
  = Ok (contig ++ string_of_list_ascii (map last_or_space rest))%string.
Proof.
  induction rest as [| n rest IH]; intros contig Hne; simpl.
  - f_equal. induction contig as [| c contig IHc]; simpl; congruence.
  - rewrite last_char_ok by (apply Hne; now left). unfold bind.
    rewrite IH by (intros m Hm; apply Hne; now right).
    f_equal. induction contig as [| c contig IHc]; simpl; [reflexivity|].
    f_equal. apply IHc.
Qed.

Lemma contig_of_path_ok (first : string) (rest : list string) :
  (forall n, In n rest -> n <> "") ->
  exists contig,
    contig_of_path (first :: rest) = Ok (contig, String.length contig) /\
    list_ascii_of_string contig = contig_chars (first :: rest).
Proof.
  intros Hne. unfold contig_of_path. rewrite extend_contig_ok by assumption.
  unfold bind. eexists. split; [reflexivity|].
  rewrite list_ascii_app, list_ascii_of_string_of_list_ascii. reflexivity.
Qed.

Lemma overlaps_lists (u v : string) :
  overlaps u v ->
  tl (list_ascii_of_string u) = removelast (list_ascii_of_string v).
Proof.
  unfold overlaps, str_slice. intros H. apply string_of_list_inj in H.
  now rewrite slice_tail, slice_drop_last in H.
Qed.

(** Along an overlap the contig of a path is the first character of
    its first node before the contig of the rest. *)
Lemma contig_chars_shift (u v : string) (rest : list string) :
  u <> "" -> v <> "" -> overlaps u v ->
  exists a, contig_chars (u :: v :: rest) = a :: contig_chars (v :: rest).
Proof.
  intros Hu Hv Hov. apply overlaps_lists in Hov.
  unfold contig_chars. simpl map.
  destruct (list_ascii_of_string u) as [| a tu] eqn:Eu.
  - destruct u; [congruence | discriminate].
  - exists a. simpl in Hov. rewrite (nonempty_snoc v Hv), <- Hov.
    simpl. now rewrite <- app_assoc.
Qed.

Lemma nonempty_of_length (s : string) (m : nat) :
  1 <= m -> String.length s = m -> s <> "".
Proof. intros Hm Hl ->. simpl in Hl. lia. Qed.

Lemma contig_chars_window (m : nat) (path : list string) :
  1 <= m ->
  (forall n, In n path -> String.length n = m) ->
  (forall u v, In (u, v) (steps path) -> overlaps u v) ->
  forall i, i < List.length path ->
    firstn m (skipn i (contig_chars path)) = list_ascii_of_string (nth i path "").
Proof.
  intros Hm. induction path as [| u path IH]; intros Hlen Hov i Hi;
    [simpl in Hi; lia|].
  destruct i as [| i].
  - simpl skipn. simpl nth. unfold contig_chars.
    rewrite firstn_app.
    rewrite <- (Hlen u (or_introl eq_refl)), <- length_list_ascii.
    rewrite firstn_all, Nat.sub_diag. simpl. apply app_nil_r.
  - destruct path as [| v rest]; [simpl in Hi; lia|].
    destruct (contig_chars_shift u v rest) as [a ->].
    + apply (nonempty_of_length u m Hm). apply Hlen. now left.
    + apply (nonempty_of_length v m Hm). apply Hlen. right. now left.
    + apply Hov. rewrite steps_cons. now left.
    + simpl skipn. change (nth (S i) (u :: v :: rest) "") with (nth i (v :: rest) "").
      apply IH.
      * intros n Hn. apply Hlen. now right.
      * intros x y Hxy. apply Hov. rewrite steps_cons. now right.
      * simpl in Hi |- *. lia.
Qed.

(** X17.  The contig of a path of overlapping nodes of the same length
    [m >= 1] reads the path back: it has [m + len(path) - 1]
    characters, and its slice of length [m] at the index [i] is the
    [i]-th node of the path. *)
Theorem X17_contig_reads_back (path : list string) (m : nat) :
  1 <= m ->
  path <> [] ->
  (forall n, In n path -> String.length n = m) ->
  (forall u v, In (u, v) (steps path) -> overlaps u v) ->
  exists contig,
    contig_of_path path = Ok (contig, String.length contig) /\
    String.length contig = m + (List.length path - 1) /\
    forall i, i < List.length path ->
      str_slice contig (Some (Z.of_nat i)) (Some (Z.of_nat (i + m))) = nth i path "".
Proof.
  intros Hm Hne Hlen Hov.
  destruct path as [| first rest]; [congruence|].
  destruct (contig_of_path_ok first rest) as (contig & Hc & Hchars).
  { intros n Hn. apply (nonempty_of_length n m Hm). apply Hlen. now right. }
  exists contig. split; [exact Hc|]. split.
  - rewrite <- length_list_ascii, Hchars. unfold contig_chars.
    rewrite length_app, length_map, length_list_ascii.
    rewrite (Hlen first (or_introl eq_refl)). simpl. lia.
  - intros i Hi. unfold str_slice. rewrite slice_window, Hchars.
    rewrite (contig_chars_window m (first :: rest) Hm Hlen Hov i Hi).
    apply string_of_list_ascii_of_string.
Qed.

Lemma X17_contig_reads_back_witness :
  exists contig,
    contig_of_path ["AA"; "AT"; "TC"] = Ok (contig, String.length contig) /\
    String.length contig = 2 + (3 - 1).
Proof.
  destruct (X17_contig_reads_back ["AA"; "AT"; "TC"] 2) as (contig & Hc & Hl & _).
  - lia.
  - discriminate.
  - intros n [<- | [<- | [<- | []]]]; reflexivity.
  - intros u v [[= <- <-] | [[= <- <-] | []]]; reflexivity.
  - exists contig. split; [exact Hc | exact Hl].
Defined.

Lemma mapM_total {A B : Type} (f : A -> result B) (P : B -> Prop) (l : list A) :
  (forall a, In a l -> exists b, f a = Ok b /\ P b) ->
  exists bs, mapM f l = Ok bs /\ Forall P bs.
Proof.
  induction l as [| a l IH]; intros H.
  - exists []. split; [reflexivity | constructor].
  - destruct (H a (or_introl eq_refl)) as (b & Hb & Pb).
    destruct IH as (bs & Hbs & Pbs); [intros x Hx; apply H; now right|].
    exists (b :: bs). simpl. rewrite Hb, Hbs. split; [reflexivity | now constructor].
Qed.

Lemma successors_in_graph g n c :
  wf g -> In c (successors g n) -> In c (nodes g).
Proof.
  intros Hwf H. unfold successors in H.
  apply in_map_iff in H as (e & <- & He). apply filter_In in He as [He _].
  apply (wf_ends g Hwf e He).
Qed.

Lemma simple_paths_from_nodes g target (fuel : nat) :
  wf g ->
  forall visited current p,
    In p (simple_paths_from fuel g target visited current) ->
    forall n, In n p -> In n visited \/ In n (nodes g).
Proof.
  intros Hwf. induction fuel as [| fuel IH]; intros visited current p Hin;
    [contradiction|].
  simpl in Hin. apply in_flat_map in Hin as (child & Hc & Hin).
  apply (successors_in_graph g current child Hwf) in Hc.
  destruct (mem child visited); [contradiction|].
  destruct (String.eqb child target).
  - destruct Hin as [<- | []]. intros n Hn.
    apply in_app_or in Hn as [Hn | [<- | []]]; auto.
  - intros n Hn. destruct (IH _ _ _ Hin n Hn) as [Hv | Hg]; [| now right].
    apply in_app_or in Hv as [Hv | [<- | []]]; auto.
Qed.

Lemma paths_between_total g start end_ :
  wf g -> In start (nodes g) -> In end_ (nodes g) ->
  exists paths,
    paths_between g start end_ = Ok paths /\
    Forall (fun p => p <> [] /\ forall n, In n p -> In n (nodes g)) paths.
Proof.
  intros Hwf Hs He. unfold paths_between, has_path.
  pose proof (proj2 (has_node_In g start) Hs) as Es.
  pose proof (proj2 (has_node_In g end_) He) as Ee.
  rewrite Es, Ee. simpl negb. cbv iota. unfold bind.
  destruct (mem end_ _); [| exists []; split; [reflexivity | constructor]].
  destruct (all_simple_paths g start end_) as [paths | e] eqn:Ep.
  - exists paths. split; [reflexivity|]. apply Forall_forall. intros p Hp.
    destruct (all_simple_paths_shape _ _ _ _ _ Ep Hp) as (_ & _ & _ & mid & ->).
    split; [discriminate|].
    unfold all_simple_paths in Ep. rewrite Es, Ee in Ep. simpl in Ep.
    destruct (String.eqb start end_); injection Ep as <-; [contradiction|].
    intros n Hn.
    destruct (simple_paths_from_nodes g end_ _ Hwf _ _ _ Hp n Hn) as [[<- | []] | H];
      assumption.
  - unfold all_simple_paths in Ep. rewrite Es, Ee in Ep. simpl in Ep.
    destruct (String.eqb start end_); discriminate.
Qed.

Lemma extend_contig_empty_node (rest : list string) : forall contig,
  In "" rest -> extend_contig contig rest = Err IndexError.
Proof.
  induction rest as [| n rest IH]; intros contig Hin; [contradiction|].
  simpl. destruct (string_dec n "") as [-> | Hne]; [reflexivity|].
  rewrite last_char_ok by assumption. unfold bind. apply IH.
  destruct Hin as [-> | Hin]; [congruence | assumption].
Qed.

(** X18.  On a well-formed graph that has the starting and the ending
    nodes and no empty node, [get_contigs] returns: every contig comes
    with its length, which is at least one. *)
Theorem X18_get_contigs_returns (g : DiGraph) (starting_nodes ending_nodes : list string) :
  wf g ->
  (forall s, In s starting_nodes -> In s (nodes g)) ->
  (forall e, In e ending_nodes -> In e (nodes g)) ->
  ~ In "" (nodes g) ->
  exists contigs,
    get_contigs g starting_nodes ending_nodes = Ok contigs /\
    forall c n, In (c, n) contigs -> n = String.length c /\ 1 <= n.
Proof.
  intros Hwf HS HE Hno. unfold get_contigs.
  set (good := fun p : list string => p <> [] /\ forall n, In n p -> In n (nodes g)).
  destruct (mapM_total
              (fun start =>
                 per_end <- mapM (paths_between g start) ending_nodes ;;
                 Ok (List.concat per_end))
              (Forall good) starting_nodes) as (found & -> & Hfound).
  { intros s Hs.
    destruct (mapM_total (paths_between g s) (Forall good) ending_nodes)
      as (per_end & -> & Hper).
    - intros e He. apply paths_between_total; auto.
    - exists (List.concat per_end). split; [reflexivity|].
      now apply Forall_concat. }
  unfold bind.
  destruct (mapM_total contig_of_path
              (fun cn : string * nat => snd cn = String.length (fst cn) /\ 1 <= snd cn)
              (List.concat found)) as (contigs & -> & Hcontigs).
  { intros p Hp.
    assert (good p) as [Hne Hnodes].
    { apply Forall_concat in Hfound. rewrite Forall_forall in Hfound. now apply Hfound. }
    destruct p as [| first rest]; [congruence|].
    destruct (contig_of_path_ok first rest) as (contig & Hc & Hchars).
    { intros n Hn ->. apply Hno, Hnodes. now right. }
    exists (contig, String.length contig). split; [exact Hc|].
    split; [reflexivity|]. simpl.
    rewrite <- length_list_ascii, Hchars. unfold contig_chars.
    rewrite length_app, length_list_ascii.
    assert (first <> "") as Hf by (intros ->; apply Hno, Hnodes; now left).
    destruct first; [congruence | simpl; lia]. }
  exists contigs. split; [reflexivity|].
  intros c n Hin. rewrite Forall_forall in Hcontigs. apply (Hcontigs (c, n) Hin).
Qed.

Lemma X18_get_contigs_returns_witness :
  exists contigs, get_contigs bubble_with_tail ["A"] ["E"] = Ok contigs.
Proof.
  destruct (X18_get_contigs_returns bubble_with_tail ["A"] ["E"])
    as (contigs & H & _).
  - apply build_wf, empty_wf.
  - intros s [<- | []]. vm_compute. tauto.
  - intros e [<- | []]. vm_compute. tauto.
  - vm_compute. intuition discriminate.
  - exists contigs. exact H.
Defined.

(** X19.  A path with an empty node after its first one has no contig:
    the last character of the empty string raises [IndexError]. *)
Theorem X19_contig_of_empty_node (first : string) (rest : list string) :
  In "" rest -> contig_of_path (first :: rest) = Err IndexError.
Proof.
  intros H. unfold contig_of_path. now rewrite extend_contig_empty_node.
Qed.

Lemma X19_contig_of_empty_node_witness :
  contig_of_path ["A"; ""; "B"] = Err IndexError.
Proof.
  apply (X19_contig_of_empty_node "A" [""; "B"]). simpl. tauto.
Defined.

(** ** More on the cutter and on the average weight *)

(** X20.  On a read of length [L >= 2k] every substring that
    [cut_kmer] yields is a full k-mer, and there are at most [2k] of
    them, whatever the length of the read. *)
Theorem X20_long_read_windows (read : string) (k : nat) :
  1 <= k ->
  2 * k <= String.length read ->
  exists kmers,
    cut_kmer read k = Ok kmers /\
    List.length kmers <= 2 * k /\
    forall s, In s kmers -> String.length s = k.
Proof.
  intros Hk HL. rewrite (cut_kmer_ok read k Hk). eexists. split; [reflexivity|].
  assert (k <> 0) as Hk0 by lia.
  pose proof (Nat.mod_upper_bound (String.length read) k Hk0) as Hr.
  pose proof (Nat.div_mod_eq (String.length read) k) as Hdiv.
  assert (String.length read mod k + 2 * k <= String.length read) as Hroom.
  { destruct (String.length read / k) as [| [| q]]; nia. }
  split.
  - rewrite length_map, length_seq. lia.
  - intros s Hs. apply in_map_iff in Hs as (i & <- & Hi).
    apply in_seq in Hi. rewrite str_slice_length. lia.
Qed.

Lemma X20_long_read_windows_witness :
  exists kmers,
    cut_kmer "AATCGATT" 3 = Ok kmers /\ List.length kmers <= 6.
Proof.
  destruct (X20_long_read_windows "AATCGATT" 3) as (kmers & H & Hl & _).
  - lia.
  - simpl. lia.
  - exists kmers. split; [exact H | exact Hl].
Defined.

(** X21.  [path_average_weight] raises [StatisticsError] exactly when
    no edge of the graph joins two nodes of the path. *)
Theorem X21_average_weight_error (g : DiGraph) (path : list string) :
  path_average_weight g path = Err StatisticsError <->
  (forall e, In e (edges g) -> ~ (In (src e) path /\ In (dst e) path)).
Proof.
  unfold path_average_weight. split.
  - intros H e He [Hs Hd].
    assert (In e (edges (subgraph g path))) as Hin by (apply subgraph_edges; auto).
    pose proof (mean_average (map weight (edges (subgraph g path)))) as Hm.
    rewrite H in Hm. destruct Hm as [[Hnil _] | (_ & Hov & _)]; [| discriminate].
    destruct (edges (subgraph g path)); [contradiction | discriminate].
  - intros H. destruct (edges (subgraph g path)) as [| e es] eqn:E; [reflexivity|].
    assert (In e (edges (subgraph g path))) as Hin by (rewrite E; now left).
    apply subgraph_edges in Hin as (He & Hs & Hd).
    exfalso. apply (H e He). auto.
Qed.

(** X22.  [path_average_weight] depends on the set of the nodes of the
    path only: two paths with the same nodes, in any order, have the
    same average weight. *)
Theorem X22_average_weight_of_node_set (g : DiGraph) (p q : list string) :
  (forall n, In n p <-> In n q) ->
  path_average_weight g p = path_average_weight g q.
Proof.
  intros H. unfold path_average_weight. f_equal. f_equal.
  unfold subgraph. cbn [edges]. apply filter_ext. intros e.
  now rewrite (mem_same (src e) p q H), (mem_same (dst e) p q H).
Qed.

Lemma X22_average_weight_of_node_set_witness :
  path_average_weight triangle ["A"; "B"; "C"]
  = path_average_weight triangle ["C"; "A"; "B"].
Proof.
  apply (X22_average_weight_of_node_set triangle ["A"; "B"; "C"] ["C"; "A"; "B"]).
  intros n. simpl. tauto.
Defined.
